(** * Schedlab scheduling policy ([src/cpp/src/policy.cc])

    A shallow embedding of the CPU/IO scheduling policy and the proofs of
    its specified properties.

    - The global [std::unordered_map<int, TaskState> task_states] is a
      [gmap Z TaskState] that is passed to, and returned by, every
      function that reads or writes it.
    - C++ [int] is [Z]; the three places where the code computes on ints
      ([deadline - time], [... - remaining_time], [io_remaining--]) go
      through [int_sub], 32-bit two's complement subtraction.  C++ leaves
      signed overflow undefined; [int_sub] agrees with the mathematical
      difference on every subtraction that does not overflow
      ([int_sub_exact]).
    - Iteration over the map is iteration over [map_to_list]; the unordered
      map promises no order, and no theorem below depends on one.
    - [std::sort] is [std_sort], an insertion sort driven by the same
      boolean comparator; the theorems on the selected task use only that
      its result is a sorted permutation of its input. *)

From stdpp Require Import gmap list sorting.

Local Open Scope Z_scope.

(** ** 32-bit integers *)

Definition int_min : Z := -2147483648.
Definition int_max : Z := 2147483647.

Definition in_int (z : Z) : Prop := int_min ≤ z ≤ int_max.

(** Reduction of a mathematical integer to the representable range. *)
Definition wrap (z : Z) : Z := (z + 2147483648) `mod` 4294967296 - 2147483648.

(** [a - b] on [int]. *)
Definition int_sub (a b : Z) : Z := wrap (a - b).

(** ** Types of [policy.h] *)

Module Event.

(** Modelled from the spec: [policy.h], which declares [Event],
    [Event::Task], [Event::Type] and [Action], is not part of the source
    tree.  The spec gives a task an identifier, a deadline and a
    two-valued priority (high/normal), and an event a type among Arrival,
    Finish, IoRequest, IoEnd and Timer, a timestamp and a task snapshot.
    The constructor and field names are the ones [policy.cc] uses. *)
Inductive Priority : Set := kHigh | kNormal.

Record Task : Set := mkTask {
  taskId : Z;
  deadline : Z;
  priority : Priority
}.

Inductive Type_ : Set :=
  | kTaskArrival | kTaskFinish | kIoRequest | kIoEnd | kTimer.

Record t : Set := mkEvent {
  type : Type_;
  time : Z;
  task : Task
}.

End Event.

Import Event (kHigh, kNormal, kTaskArrival, kTaskFinish, kIoRequest, kIoEnd,
              kTimer, taskId, deadline, priority, mkTask, mkEvent).

Global Instance Priority_eq_dec : EqDecision Event.Priority.
Proof. solve_decision. Defined.

(** Modelled from the spec: [Action] of [policy.h], the decision pair
    (cpuTaskId, ioTaskId), 0 meaning that the resource stays idle. *)
Record Action : Set := mkAction {
  cpuTask : Z;
  ioTask : Z
}.

(** ** The per-task record *)

Record TaskState : Set := mkTaskState {
  task : Event.Task;
  is_io_active : bool;
  remaining_time : Z;
  slack_time : Z;
  io_remaining : Z;
  urgency_level : Z
}.

(** The value-initialised record that [operator[]] yields on a key without
    an entry. *)
Definition TaskState_zero : TaskState :=
  mkTaskState (mkTask 0 0 kHigh) false 0 0 0 0.

(** [task_states[id]] read as an rvalue.  On a missing key the C++ operator
    also inserts the zero record; every read the policy performs is on the
    id of a task copied out of the table, which is present
    ([ready_tasks_present], [io_tasks_present]), so the insertion never
    happens and is not threaded through the comparators. *)
Definition at_ (task_states : gmap Z TaskState) (id : Z) : TaskState :=
  default TaskState_zero (task_states !! id).

Definition set_io (active : bool) (io : Z) (state : TaskState) : TaskState :=
  mkTaskState (task state) active (remaining_time state) (slack_time state)
              io (urgency_level state).

(** ** Comparators *)

Definition compare_urgency (task_states : gmap Z TaskState)
    (a b : Event.Task) : bool :=
  let urgency_a := urgency_level (at_ task_states (taskId a)) in
  let urgency_b := urgency_level (at_ task_states (taskId b)) in
  if negb (urgency_a =? urgency_b) then urgency_b <? urgency_a
  else slack_time (at_ task_states (taskId a))
         <? slack_time (at_ task_states (taskId b)).

Definition compare_priority_urgency (task_states : gmap Z TaskState)
    (a b : Event.Task) : bool :=
  if negb (bool_decide (priority a = priority b))
  then bool_decide (priority a = kHigh)
  else compare_urgency task_states a b.

(** The lambda handed to the second [std::sort]. *)
Definition compare_io (task_states : gmap Z TaskState)
    (a b : Event.Task) : bool :=
  if negb (bool_decide (priority a = priority b))
  then bool_decide (priority a = kHigh)
  else io_remaining (at_ task_states (taskId a))
         <? io_remaining (at_ task_states (taskId b)).

(** ** [update_task_states] *)

(** The loop body, for one record. *)
Definition update_state (current_time : Z) (state : TaskState) : TaskState :=
  if is_io_active state then state
  else
    let slack :=
      int_sub (int_sub (deadline (task state)) current_time)
              (remaining_time state) in
    let urgency :=
      if slack <=? 0 then 2 else if slack <=? 5 then 1 else 0 in
    let urgency :=
      if bool_decide (priority (task state) = kHigh) && (slack <=? 10)
      then Z.max urgency 1 else urgency in
    mkTaskState (task state) (is_io_active state) (remaining_time state)
                slack (io_remaining state) urgency.

Definition update_task_states (current_time : Z)
    (task_states : gmap Z TaskState) : gmap Z TaskState :=
  update_state current_time <$> task_states.

(** ** [std::sort] *)

Section std_sort.
Context {A : Type} (comp : A → A → bool).

Fixpoint sort_insert (x : A) (l : list A) : list A :=
  match l with
  | [] => [x]
  | y :: l' => if comp x y then x :: y :: l' else y :: sort_insert x l'
  end.

Fixpoint std_sort (l : list A) : list A :=
  match l with
  | [] => []
  | x :: l' => sort_insert x (std_sort l')
  end.
End std_sort.

(** ** [policy] *)

(** The second loop of the [kTimer] case, for one record. *)
Definition tick_io (state : TaskState) : TaskState :=
  if is_io_active state && (0 <? io_remaining state)
  then set_io (is_io_active state) (int_sub (io_remaining state) 1) state
  else state.

(** The body of the event loop: the [switch] on [event.type]. *)
Definition handle_event (task_states : gmap Z TaskState) (event : Event.t)
    : gmap Z TaskState :=
  let id := taskId (Event.task event) in
  match Event.type event with
  | kTaskArrival =>
      <[ id := mkTaskState (Event.task event) false
                 (int_sub (deadline (Event.task event)) (Event.time event))
                 (int_sub (deadline (Event.task event)) (Event.time event))
                 0 0 ]> task_states
  | kTaskFinish => delete id task_states
  | kIoRequest =>
      if bool_decide (is_Some (task_states !! id))
      then alter (set_io true 10) id task_states
      else task_states
  | kIoEnd =>
      if bool_decide (is_Some (task_states !! id))
      then alter (set_io false 0) id task_states
      else task_states
  | kTimer =>
      tick_io <$> update_task_states (Event.time event) task_states
  end.

(** The ready queue before sorting: the tasks of the records that are not
    doing IO. *)
Definition ready_tasks (task_states : gmap Z TaskState) : list Event.Task :=
  omap (λ '(taskId, state),
          if negb (is_io_active state) then Some (task state) else None)
       (map_to_list task_states).

(** The IO queue before sorting. *)
Definition io_tasks (task_states : gmap Z TaskState) (current_cpu : Z)
    : list Event.Task :=
  omap (λ '(taskId, state),
          if is_io_active state && negb (taskId =? current_cpu)
          then Some (task state) else None)
       (map_to_list task_states).

Definition front_id (tasks : list Event.Task) : Z :=
  match tasks with
  | [] => 0
  | first :: _ => taskId first
  end.

(** [policy] maps the table it finds to the table it leaves and the
    decision it returns. *)
Definition policy (task_states : gmap Z TaskState) (events : list Event.t)
    (current_cpu current_io : Z) : gmap Z TaskState * Action :=
  let task_states := foldl handle_event task_states events in
  let ready :=
    std_sort (compare_priority_urgency task_states)
             (ready_tasks task_states) in
  let cpu := front_id ready in
  let io :=
    if current_io =? 0
    then front_id (std_sort (compare_io task_states)
                            (io_tasks task_states current_cpu))
    else current_io in
  (task_states, mkAction cpu io).

(** Event constructors for scenarios. *)

Definition arrival (id d : Z) (p : Event.Priority) (t : Z) : Event.t :=
  mkEvent kTaskArrival t (mkTask id d p).
Definition finish (id t : Z) : Event.t :=
  mkEvent kTaskFinish t (mkTask id 0 kNormal).
Definition io_request (id t : Z) : Event.t :=
  mkEvent kIoRequest t (mkTask id 0 kNormal).
Definition io_end (id t : Z) : Event.t :=
  mkEvent kIoEnd t (mkTask id 0 kNormal).
Definition timer (t : Z) : Event.t :=
  mkEvent kTimer t (mkTask 0 0 kNormal).


(** ** Notions used by the statements *)

(** Every record is filed under the id of its own task.  [policy] creates
    records only by [task_states[event.task.taskId] = {event.task, ...}], so
    the tables it builds from the empty table all satisfy this. *)
Definition table_wf (task_states : gmap Z TaskState) : Prop :=
  ∀ id state, task_states !! id = Some state → taskId (task state) = id.

(** The CPU order of the specification, on records: [cpu_precedes r1 r2]
    when [r1] is strictly preferred to [r2]: high priority before normal;
    within equal priority, higher urgency level; within equal priority and
    urgency level, smaller slack time. *)
Definition cpu_precedes (r1 r2 : TaskState) : Prop :=
  (priority (task r1) = kHigh ∧ priority (task r2) = kNormal)
  ∨ (priority (task r1) = priority (task r2)
     ∧ urgency_level r2 < urgency_level r1)
  ∨ (priority (task r1) = priority (task r2)
     ∧ urgency_level r1 = urgency_level r2
     ∧ slack_time r1 < slack_time r2).

(** The IO order of the specification: high priority before normal; within
    equal priority, smaller io_remaining. *)
Definition io_precedes (r1 r2 : TaskState) : Prop :=
  (priority (task r1) = kHigh ∧ priority (task r2) = kNormal)
  ∨ (priority (task r1) = priority (task r2)
     ∧ io_remaining r1 < io_remaining r2).

(** The urgency rule in the words of the specification: the base tier from
    the slack, then the boost of high-priority tasks. *)
Definition base_tier (slack : Z) : Z :=
  if decide (slack ≤ 0) then 2
  else if decide (slack ≤ 5) then 1
  else 0.

Definition urgency_rule (slack : Z) (p : Event.Priority) : Z :=
  if decide (p = kHigh ∧ slack ≤ 10) then Z.max (base_tier slack) 1
  else base_tier slack.

(** [comp] never places a later element strictly before an earlier one:
    the postcondition of [std::sort]. *)
Definition sorted_by {A : Type} (comp : A → A → bool) (l : list A) : Prop :=
  StronglySorted (λ x y, comp y x = false) l.

(** An event that starts a new record under [id]. *)
Definition is_arrival_of (id : Z) (event : Event.t) : Prop :=
  Event.type event = kTaskArrival ∧ taskId (Event.task event) = id.

(** ** Scenarios of the specification *)

Example scenario_single_arrival :
  (policy ∅ [arrival 1 20 kNormal 0] 0 0).2 = mkAction 1 0.
Proof. vm_compute. reflexivity. Qed.

Example scenario_priority_dominance :
  (policy ∅ [arrival 1 20 kNormal 0; arrival 2 5 kHigh 0] 0 0).2
  = mkAction 2 0.
Proof. vm_compute. reflexivity. Qed.

Example scenario_io_request :
  (policy ∅ [arrival 1 20 kNormal 0; io_request 1 0] 0 0).2 = mkAction 0 1.
Proof. vm_compute. reflexivity. Qed.

(** ** Integer arithmetic *)

Lemma wrap_in_int z : in_int (wrap z).
Proof.
  unfold in_int, wrap, int_min, int_max.
  pose proof (Z.mod_pos_bound (z + 2147483648) 4294967296). lia.
Qed.

Lemma wrap_exact z : in_int z → wrap z = z.
Proof.
  unfold in_int, wrap, int_min, int_max. intros Hz.
  rewrite Z.mod_small by lia. lia.
Qed.

Lemma int_sub_exact a b : in_int (a - b) → int_sub a b = a - b.
Proof. apply wrap_exact. Qed.

Lemma int_sub_pred x : 0 < x → x ≤ int_max → int_sub x 1 = x - 1.
Proof.
  intros Hpos Hmax. apply int_sub_exact.
  unfold in_int, int_min, int_max in *. lia.
Qed.

(** ** The sort returns a sorted permutation *)

Section std_sort_facts.
Context {A : Type} (comp : A → A → bool).

Lemma sort_insert_perm x l : sort_insert comp x l ≡ₚ x :: l.
Proof.
  induction l as [|y l IH]; simpl; [done|].
  destruct (comp x y); [done|].
  rewrite IH. apply Permutation_swap.
Qed.

Lemma std_sort_perm l : std_sort comp l ≡ₚ l.
Proof.
  induction l as [|x l IH]; simpl; [done|].
  by rewrite sort_insert_perm, IH.
Qed.

Lemma std_sort_elem_of x l : x ∈ std_sort comp l ↔ x ∈ l.
Proof. by rewrite std_sort_perm. Qed.

(** The comparator is a strict order: what [std::sort] requires of it. *)
Hypothesis comp_irrefl : ∀ x, comp x x = false.
Hypothesis comp_trans :
  ∀ x y z, comp x y = true → comp y z = true → comp x z = true.

Lemma comp_asym x y : comp x y = true → comp y x = false.
Proof.
  intros Hxy. destruct (comp y x) eqn:Hyx; [|done].
  by rewrite <-(comp_irrefl x), (comp_trans x y x).
Qed.

Lemma sort_insert_sorted x l :
  sorted_by comp l → sorted_by comp (sort_insert comp x l).
Proof.
  unfold sorted_by. induction 1 as [|y l Hl IH Hy]; simpl.
  - repeat constructor.
  - destruct (comp x y) eqn:Hxy.
    + constructor; [by constructor|].
      constructor; [by apply comp_asym|].
      eapply Forall_impl; [exact Hy|]. intros z Hzy. simpl in Hzy.
      destruct (comp z x) eqn:Hzx; [|done].
      by rewrite <-Hzy, (comp_trans z x y).
    + constructor; [done|].
      rewrite sort_insert_perm. by constructor.
Qed.

Lemma std_sort_sorted l : sorted_by comp (std_sort comp l).
Proof.
  induction l as [|x l IH]; simpl; [constructor|].
  by apply sort_insert_sorted.
Qed.

(** Whatever sorted arrangement [std::sort] settles on, nothing in it
    goes strictly before its first element. *)
Lemma sorted_front_first x l y :
  sorted_by comp (x :: l) → y ∈ x :: l → comp y x = false.
Proof.
  intros Hs Hy. apply StronglySorted_inv in Hs as [_ Hx].
  apply elem_of_cons in Hy as [->|Hy]; [done|].
  by eapply Forall_forall in Hx.
Qed.

Lemma std_sort_front l x l' :
  std_sort comp l = x :: l' → x ∈ l ∧ ∀ y, y ∈ l → comp y x = false.
Proof.
  intros Heq. split.
  - apply std_sort_elem_of. rewrite Heq. left.
  - intros y Hy. apply sorted_front_first with l'.
    + rewrite <-Heq. apply std_sort_sorted.
    + rewrite <-Heq. by apply std_sort_elem_of.
Qed.

Lemma std_sort_nil l : std_sort comp l = [] → l = [].
Proof.
  intros Heq. apply Permutation_nil_r. by rewrite <-Heq, std_sort_perm.
Qed.
End std_sort_facts.

(** ** The comparators are strict orders *)

Ltac order_cases :=
  repeat case_bool_decide; simpl; try done; try congruence;
  repeat match goal with
  | |- context [?a =? ?b] => destruct (Z.eqb_spec a b); simpl
  | H : context [?a =? ?b] |- _ => destruct (Z.eqb_spec a b); simpl in H
  | |- context [?a <? ?b] => destruct (Z.ltb_spec a b); simpl
  | H : context [?a <? ?b] |- _ => destruct (Z.ltb_spec a b); simpl in H
  end;
  try done; try lia.

Lemma priority_cases (p : Event.Priority) : p = kHigh ∨ p = kNormal.
Proof. destruct p; auto. Qed.

Lemma compare_priority_urgency_irrefl task_states a :
  compare_priority_urgency task_states a a = false.
Proof.
  unfold compare_priority_urgency, compare_urgency. order_cases.
Qed.

Lemma compare_priority_urgency_trans task_states a b c :
  compare_priority_urgency task_states a b = true →
  compare_priority_urgency task_states b c = true →
  compare_priority_urgency task_states a c = true.
Proof.
  unfold compare_priority_urgency, compare_urgency.
  destruct (priority_cases (priority a)) as [-> | ->],
           (priority_cases (priority b)) as [-> | ->],
           (priority_cases (priority c)) as [-> | ->]; simpl;
    intros Hab Hbc; order_cases.
Qed.

Lemma compare_io_irrefl task_states a : compare_io task_states a a = false.
Proof. unfold compare_io. order_cases. Qed.

Lemma compare_io_trans task_states a b c :
  compare_io task_states a b = true →
  compare_io task_states b c = true →
  compare_io task_states a c = true.
Proof.
  unfold compare_io.
  destruct (priority_cases (priority a)) as [-> | ->],
           (priority_cases (priority b)) as [-> | ->],
           (priority_cases (priority c)) as [-> | ->]; simpl;
    intros Hab Hbc; order_cases.
Qed.

(** On the records of a well-formed table the comparators decide the
    orders of the specification. *)

Lemma at_lookup task_states id state :
  task_states !! id = Some state → at_ task_states id = state.
Proof. unfold at_. by intros ->. Qed.

Lemma at_task task_states id state :
  table_wf task_states → task_states !! id = Some state →
  at_ task_states (taskId (task state)) = state.
Proof. intros Hwf Hs. rewrite (Hwf _ _ Hs). by apply at_lookup. Qed.

Lemma compare_priority_urgency_spec task_states id1 r1 id2 r2 :
  table_wf task_states →
  task_states !! id1 = Some r1 → task_states !! id2 = Some r2 →
  compare_priority_urgency task_states (task r1) (task r2) = true
  ↔ cpu_precedes r1 r2.
Proof.
  intros Hwf H1 H2.
  unfold compare_priority_urgency, compare_urgency, cpu_precedes.
  rewrite (at_task _ _ _ Hwf H1), (at_task _ _ _ Hwf H2).
  destruct (priority_cases (priority (task r1))) as [-> | ->],
           (priority_cases (priority (task r2))) as [-> | ->]; simpl;
    split; intros Hc; order_cases; intuition (congruence || lia).
Qed.

Lemma compare_io_spec task_states id1 r1 id2 r2 :
  table_wf task_states →
  task_states !! id1 = Some r1 → task_states !! id2 = Some r2 →
  compare_io task_states (task r1) (task r2) = true ↔ io_precedes r1 r2.
Proof.
  intros Hwf H1 H2. unfold compare_io, io_precedes.
  rewrite (at_task _ _ _ Hwf H1), (at_task _ _ _ Hwf H2).
  destruct (priority_cases (priority (task r1))) as [-> | ->],
           (priority_cases (priority (task r2))) as [-> | ->]; simpl;
    split; intros Hc; order_cases; intuition (congruence || lia).
Qed.

(** ** What one event does to one record *)

Lemma update_state_frame t state :
  task (update_state t state) = task state
  ∧ is_io_active (update_state t state) = is_io_active state
  ∧ remaining_time (update_state t state) = remaining_time state
  ∧ io_remaining (update_state t state) = io_remaining state.
Proof.
  unfold update_state. destruct (is_io_active state) eqn:Hio; simpl; auto.
Qed.

Lemma tick_io_frame state :
  task (tick_io state) = task state
  ∧ is_io_active (tick_io state) = is_io_active state
  ∧ remaining_time (tick_io state) = remaining_time state
  ∧ slack_time (tick_io state) = slack_time state
  ∧ urgency_level (tick_io state) = urgency_level state.
Proof.
  unfold tick_io.
  destruct (is_io_active state && (0 <? io_remaining state)); simpl; auto.
Qed.

Lemma tick_io_ready state : is_io_active state = false → tick_io state = state.
Proof. unfold tick_io. by intros ->. Qed.

Lemma update_state_io state t :
  is_io_active state = true → update_state t state = state.
Proof. unfold update_state. by intros ->. Qed.

Lemma lookup_timer task_states event id :
  Event.type event = kTimer →
  handle_event task_states event !! id
  = (λ state, tick_io (update_state (Event.time event) state))
      <$> task_states !! id.
Proof.
  intros Hty. unfold handle_event, update_task_states. rewrite Hty.
  rewrite !lookup_fmap. by destruct (task_states !! id).
Qed.

Lemma lookup_arrival_ne task_states event id :
  Event.type event = kTaskArrival → taskId (Event.task event) ≠ id →
  handle_event task_states event !! id = task_states !! id.
Proof.
  intros Hty Hne. unfold handle_event. rewrite Hty.
  by rewrite lookup_insert_ne.
Qed.

Lemma lookup_finish task_states event id :
  Event.type event = kTaskFinish →
  handle_event task_states event !! id
  = if decide (taskId (Event.task event) = id) then None
    else task_states !! id.
Proof.
  intros Hty. unfold handle_event. rewrite Hty. apply lookup_delete.
Qed.

Lemma lookup_io_request task_states event id :
  Event.type event = kIoRequest →
  handle_event task_states event !! id
  = if decide (taskId (Event.task event) = id)
    then set_io true 10 <$> task_states !! id
    else task_states !! id.
Proof.
  intros Hty. unfold handle_event. rewrite Hty.
  case_bool_decide as Hin.
  - rewrite lookup_alter. by case_decide; subst.
  - case_decide as Heq; [|done]. subst id.
    apply eq_None_not_Some in Hin. by rewrite Hin.
Qed.

Lemma lookup_io_end task_states event id :
  Event.type event = kIoEnd →
  handle_event task_states event !! id
  = if decide (taskId (Event.task event) = id)
    then set_io false 0 <$> task_states !! id
    else task_states !! id.
Proof.
  intros Hty. unfold handle_event. rewrite Hty.
  case_bool_decide as Hin.
  - rewrite lookup_alter. by case_decide; subst.
  - case_decide as Heq; [|done]. subst id.
    apply eq_None_not_Some in Hin. by rewrite Hin.
Qed.

(** ** Records stay filed under their own id *)

Lemma table_wf_empty : table_wf ∅.
Proof. intros id state. by rewrite lookup_empty. Qed.

Lemma table_wf_handle_event task_states event :
  table_wf task_states → table_wf (handle_event task_states event).
Proof.
  intros Hwf id state.
  destruct (Event.type event) eqn:Hty.
  - destruct (decide (taskId (Event.task event) = id)) as [<-|Hne].
    + unfold handle_event. rewrite Hty, lookup_insert_eq. by intros [= <-].
    + rewrite lookup_arrival_ne by done. apply Hwf.
  - rewrite lookup_finish by done. case_decide; [done|apply Hwf].
  - rewrite lookup_io_request by done. case_decide; [|apply Hwf].
    destruct (task_states !! id) as [old|] eqn:Hold; simpl; [|done].
    intros [= <-]. exact (Hwf _ _ Hold).
  - rewrite lookup_io_end by done. case_decide; [|apply Hwf].
    destruct (task_states !! id) as [old|] eqn:Hold; simpl; [|done].
    intros [= <-]. exact (Hwf _ _ Hold).
  - rewrite lookup_timer by done.
    destruct (task_states !! id) as [old|] eqn:Hold; simpl; [|done].
    intros [= <-].
    destruct (tick_io_frame (update_state (Event.time event) old)) as [-> _].
    destruct (update_state_frame (Event.time event) old) as [-> _].
    exact (Hwf _ _ Hold).
Qed.

Lemma table_wf_foldl events task_states :
  table_wf task_states → table_wf (foldl handle_event task_states events).
Proof.
  revert task_states.
  induction events as [|event events IH]; intros task_states Hwf; [done|].
  simpl. by apply IH, table_wf_handle_event.
Qed.

(** Every table the program can hold: the global map starts empty. *)
Lemma table_wf_reachable history : table_wf (foldl handle_event ∅ history).
Proof. apply table_wf_foldl, table_wf_empty. Qed.

(** ** The two queues *)

Lemma elem_of_ready_tasks task_states (a : Event.Task) :
  a ∈ ready_tasks task_states
  ↔ ∃ id state, task_states !! id = Some state
                ∧ is_io_active state = false ∧ a = task state.
Proof.
  unfold ready_tasks. rewrite list_elem_of_omap. split.
  - intros [[id state] [Hin Ha]]. apply elem_of_map_to_list in Hin.
    exists id, state. destruct (is_io_active state); naive_solver.
  - intros (id & state & Hin & Hio & ->). exists (id, state).
    split; [by apply elem_of_map_to_list|]. by rewrite Hio.
Qed.

Lemma elem_of_io_tasks task_states current_cpu (a : Event.Task) :
  a ∈ io_tasks task_states current_cpu
  ↔ ∃ id state, task_states !! id = Some state
                ∧ is_io_active state = true ∧ id ≠ current_cpu
                ∧ a = task state.
Proof.
  unfold io_tasks. rewrite list_elem_of_omap. split.
  - intros [[id state] [Hin Ha]]. apply elem_of_map_to_list in Hin.
    exists id, state. destruct (is_io_active state); [|done].
    destruct (Z.eqb_spec id current_cpu); naive_solver.
  - intros (id & state & Hin & Hio & Hne & ->). exists (id, state).
    split; [by apply elem_of_map_to_list|]. rewrite Hio.
    by destruct (Z.eqb_spec id current_cpu).
Qed.

(** Every task the comparators are called on has its record in the table,
    so [task_states[a.taskId]] never creates one. *)
Lemma ready_tasks_present task_states a :
  table_wf task_states → a ∈ ready_tasks task_states →
  is_Some (task_states !! taskId a).
Proof.
  intros Hwf (id & state & Hin & _ & ->)%elem_of_ready_tasks.
  rewrite (Hwf _ _ Hin). eauto.
Qed.

Lemma io_tasks_present task_states current_cpu a :
  table_wf task_states → a ∈ io_tasks task_states current_cpu →
  is_Some (task_states !! taskId a).
Proof.
  intros Hwf (id & state & Hin & _ & _ & ->)%elem_of_io_tasks.
  rewrite (Hwf _ _ Hin). eauto.
Qed.

(** ** What the front of each sorted queue is *)

Lemma cpu_front task_states :
  table_wf task_states →
  let chosen :=
    front_id (std_sort (compare_priority_urgency task_states)
                       (ready_tasks task_states)) in
  (ready_tasks task_states = [] ∧ chosen = 0)
  ∨ (∃ r0, task_states !! chosen = Some r0 ∧ is_io_active r0 = false
           ∧ ∀ id r, task_states !! id = Some r → is_io_active r = false →
                     ¬ cpu_precedes r r0).
Proof.
  intros Hwf chosen. subst chosen.
  destruct (std_sort _ (ready_tasks task_states)) as [|a rest] eqn:Hsort.
  - left. split; [|done]. by eapply std_sort_nil.
  - right. simpl.
    apply std_sort_front in Hsort as [Ha Hfirst];
      [|apply compare_priority_urgency_irrefl
       |apply compare_priority_urgency_trans].
    apply elem_of_ready_tasks in Ha as (id0 & r0 & Hr0 & Hio0 & ->).
    exists r0. rewrite (Hwf _ _ Hr0). split_and!; [done..|].
    intros id r Hr Hio Hprec.
    eapply compare_priority_urgency_spec in Hprec; [|done..].
    rewrite Hfirst in Hprec; [done|].
    apply elem_of_ready_tasks. eauto.
Qed.

Lemma io_front task_states current_cpu :
  table_wf task_states →
  let chosen :=
    front_id (std_sort (compare_io task_states)
                       (io_tasks task_states current_cpu)) in
  (io_tasks task_states current_cpu = [] ∧ chosen = 0)
  ∨ (∃ r0, task_states !! chosen = Some r0 ∧ is_io_active r0 = true
           ∧ chosen ≠ current_cpu
           ∧ ∀ id r, task_states !! id = Some r → is_io_active r = true →
                     id ≠ current_cpu → ¬ io_precedes r r0).
Proof.
  intros Hwf chosen. subst chosen.
  destruct (std_sort _ (io_tasks task_states current_cpu))
    as [|a rest] eqn:Hsort.
  - left. split; [|done]. by eapply std_sort_nil.
  - right. simpl.
    apply std_sort_front in Hsort as [Ha Hfirst];
      [|apply compare_io_irrefl|apply compare_io_trans].
    apply elem_of_io_tasks in Ha as (id0 & r0 & Hr0 & Hio0 & Hne0 & ->).
    exists r0. rewrite (Hwf _ _ Hr0). split_and!; [done..|].
    intros id r Hr Hio Hne Hprec.
    eapply compare_io_spec in Hprec; [|done..].
    rewrite Hfirst in Hprec; [done|].
    apply elem_of_io_tasks. eauto 10.
Qed.

Lemma policy_table task_states events current_cpu current_io :
  (policy task_states events current_cpu current_io).1
  = foldl handle_event task_states events.
Proof. done. Qed.

Lemma policy_cpuTask task_states events current_cpu current_io :
  cpuTask (policy task_states events current_cpu current_io).2
  = let after := foldl handle_event task_states events in
    front_id (std_sort (compare_priority_urgency after) (ready_tasks after)).
Proof. done. Qed.

Lemma policy_ioTask_free task_states events current_cpu :
  ioTask (policy task_states events current_cpu 0).2
  = let after := foldl handle_event task_states events in
    front_id (std_sort (compare_io after) (io_tasks after current_cpu)).
Proof. done. Qed.

Lemma policy_ioTask_busy task_states events current_cpu current_io :
  current_io ≠ 0 →
  ioTask (policy task_states events current_cpu current_io).2 = current_io.
Proof.
  intros Hbusy. unfold policy. simpl.
  by destruct (Z.eqb_spec current_io 0).
Qed.

(** Two records that neither order puts first agree on the sort key: the
    orders are total on keys, ties are the only freedom of the sort. *)
Lemma cpu_precedes_total r1 r2 :
  ¬ cpu_precedes r1 r2 → ¬ cpu_precedes r2 r1 →
  priority (task r1) = priority (task r2)
  ∧ urgency_level r1 = urgency_level r2 ∧ slack_time r1 = slack_time r2.
Proof.
  unfold cpu_precedes.
  destruct (priority_cases (priority (task r1))) as [-> | ->],
           (priority_cases (priority (task r2))) as [-> | ->];
    intros H12 H21; try (exfalso; tauto).
  all: assert (Hu : urgency_level r1 = urgency_level r2)
         by (apply Z.le_antisymm; apply Z.nlt_ge; intros ?; tauto).
  all: split_and!; [done..|].
  all: apply Z.le_antisymm; apply Z.nlt_ge; intros ?;
         first [by apply H12; auto 10 | by apply H21; auto 10].
Qed.

Lemma io_precedes_total r1 r2 :
  ¬ io_precedes r1 r2 → ¬ io_precedes r2 r1 →
  priority (task r1) = priority (task r2)
  ∧ io_remaining r1 = io_remaining r2.
Proof.
  unfold io_precedes.
  destruct (priority_cases (priority (task r1))) as [-> | ->],
           (priority_cases (priority (task r2))) as [-> | ->];
    intros H12 H21; try (exfalso; tauto).
  all: split; [done|].
  all: apply Z.le_antisymm; apply Z.nlt_ge; intros ?;
         first [by apply H12; auto 10 | by apply H21; auto 10].
Qed.

(** ** CPU selection *)

(** C1 — CPU selection.  For every call to [policy] on a table whose
    records are filed under their own ids, after the event batch has been
    applied the ready queue holds exactly the tasks of the records with
    [is_io_active] false; the returned [cpuTask] is 0 when no record is
    ready, and otherwise it is the id of a ready record that no ready
    record precedes in the order "high priority before normal; within equal
    priority, higher urgency level; within equal priority and urgency
    level, smaller slack time". *)
Theorem policy_cpu_selection task_states events current_cpu current_io :
  table_wf task_states →
  let after := (policy task_states events current_cpu current_io).1 in
  let chosen := cpuTask (policy task_states events current_cpu current_io).2 in
  after = foldl handle_event task_states events
  ∧ (∀ a, a ∈ ready_tasks after
          ↔ ∃ id r, after !! id = Some r ∧ is_io_active r = false
                    ∧ a = task r)
  ∧ ((∀ id r, after !! id = Some r → is_io_active r = true) → chosen = 0)
  ∧ (∀ id r, after !! id = Some r → is_io_active r = false →
       ∃ r0, after !! chosen = Some r0 ∧ is_io_active r0 = false
             ∧ taskId (task r0) = chosen
             ∧ ∀ id' r', after !! id' = Some r' → is_io_active r' = false →
                         ¬ cpu_precedes r' r0).
Proof.
  intros Hwf after chosen.
  assert (Hafter : table_wf after) by by apply table_wf_foldl.
  split_and!; [done|apply elem_of_ready_tasks|..].
  - intros Hall.
    destruct (cpu_front after Hafter) as [[_ H0]|(r0 & Hr0 & Hio & _)].
    + exact H0.
    + apply Hall in Hr0. congruence.
  - intros id r Hr Hio.
    destruct (cpu_front after Hafter) as [[Hnil _]|(r0 & Hr0 & Hio0 & Hmax)].
    + assert (Hin : task r ∈ ready_tasks after)
        by (apply elem_of_ready_tasks; eauto).
      rewrite Hnil in Hin. by apply elem_of_nil in Hin.
    + exists r0. split_and!; [done..|by apply Hafter|done].
Qed.

Lemma policy_cpu_selection_witness :
  table_wf ∅
  ∧ ∃ r0,
      (policy ∅ [arrival 1 20 kNormal 0; arrival 2 5 kHigh 0] 0 0).1
        !! cpuTask
             (policy ∅ [arrival 1 20 kNormal 0; arrival 2 5 kHigh 0] 0 0).2
      = Some r0
      ∧ is_io_active r0 = false
      ∧ taskId (task r0)
        = cpuTask
            (policy ∅ [arrival 1 20 kNormal 0; arrival 2 5 kHigh 0] 0 0).2
      ∧ ∀ id' r',
          (policy ∅ [arrival 1 20 kNormal 0; arrival 2 5 kHigh 0] 0 0).1
            !! id' = Some r' →
          is_io_active r' = false → ¬ cpu_precedes r' r0.
Proof.
  split; [exact table_wf_empty|].
  destruct (policy_cpu_selection
              ∅ [arrival 1 20 kNormal 0; arrival 2 5 kHigh 0] 0 0
              table_wf_empty) as (_ & _ & _ & Hchosen).
  apply (Hchosen 1 (mkTaskState (mkTask 1 20 kNormal) false 20 20 0 0)).
  - vm_compute. reflexivity.
  - reflexivity.
Defined.

(** ** IO selection *)

(** C3 — IO non-preemption.  For every call to [policy] with a non-zero
    caller-supplied [current_io], the returned [ioTask] is [current_io],
    whatever the event batch and the table hold. *)
Theorem policy_io_non_preemption task_states events current_cpu current_io :
  current_io ≠ 0 →
  ioTask (policy task_states events current_cpu current_io).2 = current_io.
Proof. apply policy_ioTask_busy. Qed.

Lemma policy_io_non_preemption_witness :
  7 ≠ 0
  ∧ ioTask (policy ∅ [arrival 1 20 kHigh 0; io_request 1 0; timer 1] 0 7).2
    = 7.
Proof.
  split; [lia|].
  apply (policy_io_non_preemption
           ∅ [arrival 1 20 kHigh 0; io_request 1 0; timer 1] 0 7).
  lia.
Defined.

(** C4 — IO-free selection.  For every call to [policy] with
    [current_io = 0] on a table whose records are filed under their own
    ids, the IO queue holds exactly the tasks of the records with
    [is_io_active] true whose id differs from [current_cpu]; the returned
    [ioTask] is 0 when there is no such record, and otherwise it is the id
    of a candidate that no candidate precedes in the order "high priority
    before normal; within equal priority, smaller io_remaining". *)
Theorem policy_io_free_selection task_states events current_cpu :
  table_wf task_states →
  let after := (policy task_states events current_cpu 0).1 in
  let chosen := ioTask (policy task_states events current_cpu 0).2 in
  after = foldl handle_event task_states events
  ∧ (∀ a, a ∈ io_tasks after current_cpu
          ↔ ∃ id r, after !! id = Some r ∧ is_io_active r = true
                    ∧ id ≠ current_cpu ∧ a = task r)
  ∧ ((∀ id r, after !! id = Some r → is_io_active r = true →
              id = current_cpu) → chosen = 0)
  ∧ (∀ id r, after !! id = Some r → is_io_active r = true →
       id ≠ current_cpu →
       ∃ r0, after !! chosen = Some r0 ∧ is_io_active r0 = true
             ∧ chosen ≠ current_cpu ∧ taskId (task r0) = chosen
             ∧ ∀ id' r', after !! id' = Some r' → is_io_active r' = true →
                         id' ≠ current_cpu → ¬ io_precedes r' r0).
Proof.
  intros Hwf after chosen.
  assert (Hafter : table_wf after) by by apply table_wf_foldl.
  split_and!; [done|apply elem_of_io_tasks|..].
  - intros Hall.
    destruct (io_front after current_cpu Hafter)
      as [[_ H0]|(r0 & Hr0 & Hio & Hne & _)].
    + exact H0.
    + by apply Hall in Hr0.
  - intros id r Hr Hio Hne.
    destruct (io_front after current_cpu Hafter)
      as [[Hnil _]|(r0 & Hr0 & Hio0 & Hne0 & Hmax)].
    + assert (Hin : task r ∈ io_tasks after current_cpu)
        by (apply elem_of_io_tasks; eauto 10).
      rewrite Hnil in Hin. by apply elem_of_nil in Hin.
    + exists r0. split_and!; [done..|by apply Hafter|done].
Qed.

Lemma policy_io_free_selection_witness :
  table_wf ∅
  ∧ ∃ r0,
      (policy ∅ [arrival 1 20 kNormal 0; arrival 2 30 kHigh 0;
                 io_request 1 1; io_request 2 2; timer 3] 0 0).1
        !! ioTask
             (policy ∅ [arrival 1 20 kNormal 0; arrival 2 30 kHigh 0;
                        io_request 1 1; io_request 2 2; timer 3] 0 0).2
      = Some r0
      ∧ is_io_active r0 = true
      ∧ ioTask
          (policy ∅ [arrival 1 20 kNormal 0; arrival 2 30 kHigh 0;
                     io_request 1 1; io_request 2 2; timer 3] 0 0).2 ≠ 0
      ∧ taskId (task r0)
        = ioTask
            (policy ∅ [arrival 1 20 kNormal 0; arrival 2 30 kHigh 0;
                       io_request 1 1; io_request 2 2; timer 3] 0 0).2
      ∧ ∀ id' r',
          (policy ∅ [arrival 1 20 kNormal 0; arrival 2 30 kHigh 0;
                     io_request 1 1; io_request 2 2; timer 3] 0 0).1
            !! id' = Some r' →
          is_io_active r' = true → id' ≠ 0 → ¬ io_precedes r' r0.
Proof.
  split; [exact table_wf_empty|].
  destruct (policy_io_free_selection
              ∅ [arrival 1 20 kNormal 0; arrival 2 30 kHigh 0;
                 io_request 1 1; io_request 2 2; timer 3] 0
              table_wf_empty) as (_ & _ & _ & Hchosen).
  apply (Hchosen 1 (mkTaskState (mkTask 1 20 kNormal) true 20 20 9 0)).
  - vm_compute. reflexivity.
  - reflexivity.
  - lia.
Defined.

(** ** Timer ticks *)

Lemma update_state_ready t state :
  is_io_active state = false →
  let slack :=
    int_sub (int_sub (deadline (task state)) t) (remaining_time state) in
  slack_time (update_state t state) = slack
  ∧ urgency_level (update_state t state)
    = urgency_rule slack (priority (task state)).
Proof.
  intros Hio slack. unfold update_state. rewrite Hio. simpl. fold slack.
  split; [done|]. unfold urgency_rule, base_tier.
  destruct (Z.leb_spec slack 0), (Z.leb_spec slack 5), (Z.leb_spec slack 10);
    repeat case_decide; repeat case_bool_decide; simpl; try lia;
    try tauto; destruct_and?; try congruence.
Qed.

(** C2 — Urgency recomputation.  On a Timer event with timestamp [t],
    every record that is not doing IO gets
    [slack_time = deadline − t − remaining_time] (computed on [int], and
    equal to the mathematical value whenever the two subtractions stay in
    range) and the urgency level of the rule: 2 if the slack is at most 0,
    1 if it is in (0, 5], 0 above 5, raised to at least 1 for a
    high-priority task with slack at most 10 and never lowered from 2.  A
    record that is doing IO keeps its slack time and its urgency level. *)
Theorem timer_recomputes_urgency task_states event id state :
  Event.type event = kTimer →
  task_states !! id = Some state →
  ∃ state',
    handle_event task_states event !! id = Some state'
    ∧ (is_io_active state = true →
         slack_time state' = slack_time state
         ∧ urgency_level state' = urgency_level state)
    ∧ (is_io_active state = false →
         let d := deadline (task state) in
         let t := Event.time event in
         let slack := slack_time state' in
         slack = int_sub (int_sub d t) (remaining_time state)
         ∧ (in_int (d - t) → in_int (d - t - remaining_time state) →
            slack = d - t - remaining_time state)
         ∧ urgency_level state' = urgency_rule slack (priority (task state))
         ∧ (slack ≤ 0 → urgency_level state' = 2)
         ∧ (0 < slack ≤ 5 → urgency_level state' = 1)
         ∧ (5 < slack ≤ 10 → priority (task state) = kHigh →
            urgency_level state' = 1)
         ∧ (5 < slack → priority (task state) = kNormal ∨ 10 < slack →
            urgency_level state' = 0)).
Proof.
  intros Hty Hstate.
  exists (tick_io (update_state (Event.time event) state)).
  split; [by rewrite lookup_timer, Hstate|].
  destruct (tick_io_frame (update_state (Event.time event) state))
    as (_ & _ & _ & -> & ->).
  split.
  - intros Hio. by rewrite update_state_io.
  - intros Hio.
    destruct (update_state_ready (Event.time event) state Hio) as [Hs Hu].
    simpl in Hs, Hu. simpl. rewrite Hu, Hs.
    split_and!; [done| |done|..].
    + intros H1 H2. by rewrite (int_sub_exact _ _ H1), int_sub_exact.
    + intros Hle. unfold urgency_rule, base_tier.
      repeat case_decide; lia.
    + intros Hle. unfold urgency_rule, base_tier.
      repeat case_decide; lia.
    + intros Hle Hhigh. unfold urgency_rule, base_tier.
      repeat case_decide; try lia. tauto.
    + intros Hle Hor. unfold urgency_rule, base_tier.
      repeat case_decide; try lia. destruct_and!.
      destruct Hor; [congruence|lia].
Qed.

Lemma timer_recomputes_urgency_witness :
  Event.type (timer 3) = kTimer
  ∧ foldl handle_event ∅ [arrival 1 20 kHigh 0; arrival 2 9 kNormal 1;
                          io_request 2 1] !! 1
    = Some (mkTaskState (mkTask 1 20 kHigh) false 20 20 0 0)
  ∧ ∃ state',
      handle_event
        (foldl handle_event ∅ [arrival 1 20 kHigh 0; arrival 2 9 kNormal 1;
                               io_request 2 1])
        (timer 3) !! 1 = Some state'
      ∧ slack_time state' = -3 ∧ urgency_level state' = 2.
Proof.
  split; [reflexivity|]. split; [vm_compute; reflexivity|].
  destruct (timer_recomputes_urgency
              (foldl handle_event ∅ [arrival 1 20 kHigh 0;
                                     arrival 2 9 kNormal 1; io_request 2 1])
              (timer 3) 1
              (mkTaskState (mkTask 1 20 kHigh) false 20 20 0 0))
    as (state' & Hlookup & _ & Hready).
  - reflexivity.
  - vm_compute. reflexivity.
  - exists state'. split; [exact Hlookup|].
    destruct (Hready eq_refl) as (Hslack & _ & _ & Hcritical & _).
    simpl in Hslack, Hcritical.
    assert (Hvalue : slack_time state' = -3)
      by (rewrite Hslack; vm_compute; reflexivity).
    split; [exact Hvalue|]. apply Hcritical. rewrite Hvalue. lia.
Defined.

(** ** The IO countdown *)

Lemma io_bounded_handle_event task_states event :
  map_Forall (λ _ state, 0 ≤ io_remaining state ≤ 10) task_states →
  map_Forall (λ _ state, 0 ≤ io_remaining state ≤ 10)
             (handle_event task_states event).
Proof.
  intros Hb id state. specialize (Hb id).
  destruct (Event.type event) eqn:Hty.
  - destruct (decide (taskId (Event.task event) = id)) as [<-|Hne].
    + unfold handle_event. rewrite Hty, lookup_insert_eq.
      intros [= <-]. simpl. lia.
    + rewrite lookup_arrival_ne by done. apply Hb.
  - rewrite lookup_finish by done. case_decide; [done|apply Hb].
  - rewrite lookup_io_request by done. case_decide; [|apply Hb].
    destruct (task_states !! id); simpl; [|done].
    intros [= <-]. simpl. lia.
  - rewrite lookup_io_end by done. case_decide; [|apply Hb].
    destruct (task_states !! id); simpl; [|done].
    intros [= <-]. simpl. lia.
  - rewrite lookup_timer by done.
    destruct (task_states !! id) as [old|]; simpl; [|done].
    intros [= <-]. specialize (Hb old eq_refl).
    unfold tick_io.
    destruct (update_state_frame (Event.time event) old)
      as (_ & _ & _ & Hio).
    destruct (is_io_active _ && (0 <? io_remaining _)) eqn:Hdec;
      simpl; rewrite Hio; [|done].
    apply andb_prop in Hdec as [_ Hpos%Z.ltb_lt]. rewrite Hio in Hpos.
    rewrite int_sub_pred; unfold int_max; lia.
Qed.

Lemma io_bounded_foldl events task_states :
  map_Forall (λ _ state, 0 ≤ io_remaining state ≤ 10) task_states →
  map_Forall (λ _ state, 0 ≤ io_remaining state ≤ 10)
             (foldl handle_event task_states events).
Proof.
  revert task_states.
  induction events as [|event events IH]; intros task_states Hb; [done|].
  simpl. by apply IH, io_bounded_handle_event.
Qed.

Lemma io_bounded_reachable history id state :
  foldl handle_event ∅ history !! id = Some state →
  0 ≤ io_remaining state ≤ 10.
Proof.
  apply (io_bounded_foldl history ∅). apply map_Forall_empty.
Qed.

(** C5 — io_remaining invariant.  In every table that an event sequence
    builds from the empty table, no record has a negative [io_remaining];
    an IoRequest for a known id sets it to 10 whatever the record held;
    a Timer event lowers it by exactly 1 when the record is doing IO and
    it is positive, and leaves it alone otherwise; an IoEnd for a known id
    resets it to 0. *)
Theorem io_remaining_invariant history :
  let task_states := foldl handle_event ∅ history in
  (∀ id state, task_states !! id = Some state → 0 ≤ io_remaining state)
  ∧ (∀ event id state,
       Event.type event = kIoRequest → taskId (Event.task event) = id →
       task_states !! id = Some state →
       ∃ state', handle_event task_states event !! id = Some state'
                 ∧ is_io_active state' = true ∧ io_remaining state' = 10)
  ∧ (∀ event id state,
       Event.type event = kTimer → task_states !! id = Some state →
       ∃ state', handle_event task_states event !! id = Some state'
                 ∧ (is_io_active state = true → 0 < io_remaining state →
                    io_remaining state' = io_remaining state - 1)
                 ∧ (is_io_active state = false ∨ io_remaining state ≤ 0 →
                    io_remaining state' = io_remaining state))
  ∧ (∀ event id state,
       Event.type event = kIoEnd → taskId (Event.task event) = id →
       task_states !! id = Some state →
       ∃ state', handle_event task_states event !! id = Some state'
                 ∧ is_io_active state' = false ∧ io_remaining state' = 0).
Proof.
  intros task_states. split_and!.
  - intros id state Hstate.
    by destruct (io_bounded_reachable history id state Hstate).
  - intros event id state Hty Hid Hstate.
    exists (set_io true 10 state).
    rewrite lookup_io_request, decide_True, Hstate by done. done.
  - intros event id state Hty Hstate.
    exists (tick_io (update_state (Event.time event) state)).
    split; [by rewrite lookup_timer, Hstate|].
    destruct (io_bounded_reachable history id state Hstate) as [_ Hmax].
    destruct (update_state_frame (Event.time event) state)
      as (_ & Hact & _ & Hio).
    unfold tick_io. rewrite Hact, Hio. split.
    + intros -> Hpos. simpl.
      destruct (Z.ltb_spec 0 (io_remaining state)); [|lia].
      simpl. apply int_sub_pred; unfold int_max; lia.
    + intros [-> | Hle]; [done|].
      destruct (Z.ltb_spec 0 (io_remaining state)); [lia|].
      by rewrite andb_false_r.
  - intros event id state Hty Hid Hstate.
    exists (set_io false 0 state).
    rewrite lookup_io_end, decide_True, Hstate by done. done.
Qed.

Lemma io_remaining_invariant_witness :
  Event.type (timer 2) = kTimer
  ∧ foldl handle_event ∅ [arrival 1 20 kNormal 0; io_request 1 1] !! 1
    = Some (mkTaskState (mkTask 1 20 kNormal) true 20 20 10 0)
  ∧ ∃ state',
      handle_event
        (foldl handle_event ∅ [arrival 1 20 kNormal 0; io_request 1 1])
        (timer 2) !! 1 = Some state'
      ∧ io_remaining state' = 9.
Proof.
  split; [reflexivity|]. split; [vm_compute; reflexivity|].
  destruct (io_remaining_invariant [arrival 1 20 kNormal 0; io_request 1 1])
    as (_ & _ & Htimer & _).
  destruct (Htimer (timer 2) 1
              (mkTaskState (mkTask 1 20 kNormal) true 20 20 10 0))
    as (state' & Hlookup & Hdec & _).
  - reflexivity.
  - vm_compute. reflexivity.
  - exists state'. split; [exact Hlookup|].
    simpl in Hdec. rewrite Hdec; [reflexivity|reflexivity|lia].
Defined.

(** ** Events on unknown ids *)

Lemma handle_event_unknown task_states event :
  Event.type event = kIoRequest ∨ Event.type event = kIoEnd
  ∨ Event.type event = kTaskFinish →
  task_states !! taskId (Event.task event) = None →
  handle_event task_states event = task_states.
Proof.
  intros Hty Hnone. unfold handle_event.
  destruct Hty as [-> | [-> | ->]].
  - rewrite bool_decide_eq_false_2; [done|]. rewrite Hnone. by intros [??].
  - rewrite bool_decide_eq_false_2; [done|]. rewrite Hnone. by intros [??].
  - by apply delete_id.
Qed.

(** C8 — Unknown-id tolerance.  An IoRequest or IoEnd event whose task id
    has no record leaves the table exactly as it was, and so does a Finish
    event for an absent id; a batch made of such events leaves the table
    unchanged; and [policy] returns a table and a decision on every
    input: it has no failure path. *)
Theorem unknown_id_tolerance task_states :
  (∀ event,
     Event.type event = kIoRequest ∨ Event.type event = kIoEnd
     ∨ Event.type event = kTaskFinish →
     task_states !! taskId (Event.task event) = None →
     handle_event task_states event = task_states)
  ∧ (∀ events current_cpu current_io,
       Forall (λ event,
                 (Event.type event = kIoRequest ∨ Event.type event = kIoEnd
                  ∨ Event.type event = kTaskFinish)
                 ∧ task_states !! taskId (Event.task event) = None) events →
       (policy task_states events current_cpu current_io).1 = task_states)
  ∧ (∀ events current_cpu current_io,
       ∃ after action,
         policy task_states events current_cpu current_io = (after, action)).
Proof.
  split_and!.
  - apply handle_event_unknown.
  - intros events current_cpu current_io Hall. rewrite policy_table.
    induction Hall as [|event events [Hty Hnone] _ IH]; [done|].
    simpl. by rewrite handle_event_unknown.
  - intros events current_cpu current_io. by eexists _, _.
Qed.

Lemma unknown_id_tolerance_witness :
  (Event.type (io_request 2 4) = kIoRequest
   ∨ Event.type (io_request 2 4) = kIoEnd
   ∨ Event.type (io_request 2 4) = kTaskFinish)
  ∧ foldl handle_event ∅ [arrival 1 20 kNormal 0]
      !! taskId (Event.task (io_request 2 4)) = None
  ∧ handle_event (foldl handle_event ∅ [arrival 1 20 kNormal 0])
                 (io_request 2 4)
    = foldl handle_event ∅ [arrival 1 20 kNormal 0].
Proof.
  split; [left; reflexivity|]. split; [vm_compute; reflexivity|].
  destruct (unknown_id_tolerance
              (foldl handle_event ∅ [arrival 1 20 kNormal 0]))
    as (Hevent & _ & _).
  apply Hevent.
  - left. reflexivity.
  - vm_compute. reflexivity.
Defined.

(** ** The lifetime of a record *)

Lemma handle_event_keeps task_states event id state :
  ¬ is_arrival_of id event →
  task_states !! id = Some state →
  handle_event task_states event !! id = None
  ∨ ∃ state', handle_event task_states event !! id = Some state'
              ∧ remaining_time state' = remaining_time state
              ∧ task state' = task state.
Proof.
  intros Hnot Hstate. unfold is_arrival_of in Hnot.
  destruct (Event.type event) eqn:Hty.
  - right. exists state. rewrite lookup_arrival_ne; [done..|]. naive_solver.
  - rewrite lookup_finish by done. case_decide; [by left|]. right. eauto.
  - right. rewrite lookup_io_request by done. rewrite Hstate.
    case_decide; simpl; eauto.
  - right. rewrite lookup_io_end by done. rewrite Hstate.
    case_decide; simpl; eauto.
  - right. rewrite lookup_timer, Hstate by done. simpl.
    eexists. split; [done|].
    destruct (tick_io_frame (update_state (Event.time event) state))
      as (-> & _ & -> & _).
    destruct (update_state_frame (Event.time event) state)
      as (-> & _ & -> & _).
    done.
Qed.

Lemma handle_event_absent task_states event id :
  ¬ is_arrival_of id event →
  task_states !! id = None →
  handle_event task_states event !! id = None.
Proof.
  intros Hnot Hnone. unfold is_arrival_of in Hnot.
  destruct (Event.type event) eqn:Hty.
  - rewrite lookup_arrival_ne; [done..|]. naive_solver.
  - rewrite lookup_finish by done. by case_decide.
  - rewrite lookup_io_request, Hnone by done. by case_decide.
  - rewrite lookup_io_end, Hnone by done. by case_decide.
  - by rewrite lookup_timer, Hnone.
Qed.

Lemma foldl_absent events task_states id :
  Forall (λ event, ¬ is_arrival_of id event) events →
  task_states !! id = None →
  foldl handle_event task_states events !! id = None.
Proof.
  intros Hall. revert task_states.
  induction Hall as [|event events Hnot _ IH]; intros task_states Hnone;
    [done|].
  simpl. by apply IH, handle_event_absent.
Qed.

Lemma foldl_keeps events task_states id state state' :
  Forall (λ event, ¬ is_arrival_of id event) events →
  task_states !! id = Some state →
  foldl handle_event task_states events !! id = Some state' →
  remaining_time state' = remaining_time state ∧ task state' = task state.
Proof.
  intros Hall. revert task_states state.
  induction Hall as [|event events Hnot Hall IH];
    intros task_states state Hstate Hend.
  - simpl in Hend. by simplify_eq.
  - simpl in Hend.
    destruct (handle_event_keeps task_states event id state Hnot Hstate)
      as [Hgone|(mid & Hmid & Hrem & Htask)].
    + by rewrite (foldl_absent events _ id Hall Hgone) in Hend.
    + rewrite <-Hrem, <-Htask. by eapply IH.
Qed.

(** C9 — remaining_time is frozen at arrival.  An Arrival event at time
    [t] for a task with deadline [d] files under the task's id, over
    whatever was there, a record with [remaining_time = slack_time = d − t]
    (computed on [int]; the mathematical value whenever it is in range),
    not doing IO, [io_remaining] 0 and [urgency_level] 0.  As long as no
    later Arrival replaces the record, no event changes its
    [remaining_time] or its task; on a record that is not doing IO a Timer
    event changes only [slack_time] and [urgency_level], the slack being
    recomputed from the unchanged [remaining_time]. *)
Theorem remaining_time_frozen task_states :
  (∀ event,
     Event.type event = kTaskArrival →
     let d := deadline (Event.task event) in
     let t := Event.time event in
     handle_event task_states event !! taskId (Event.task event)
     = Some (mkTaskState (Event.task event) false
                         (int_sub d t) (int_sub d t) 0 0)
     ∧ (in_int (d - t) → int_sub d t = d - t))
  ∧ (∀ events id state state',
       Forall (λ event, ¬ is_arrival_of id event) events →
       task_states !! id = Some state →
       foldl handle_event task_states events !! id = Some state' →
       remaining_time state' = remaining_time state
       ∧ task state' = task state)
  ∧ (∀ event id state,
       Event.type event = kTimer → task_states !! id = Some state →
       ∃ state',
         handle_event task_states event !! id = Some state'
         ∧ remaining_time state' = remaining_time state
         ∧ task state' = task state
         ∧ is_io_active state' = is_io_active state
         ∧ (is_io_active state = false →
            io_remaining state' = io_remaining state
            ∧ slack_time state'
              = int_sub (int_sub (deadline (task state)) (Event.time event))
                        (remaining_time state))).
Proof.
  split_and!.
  - intros event Hty d t. split; [|apply int_sub_exact].
    unfold handle_event. rewrite Hty. apply lookup_insert_eq.
  - intros events id state state'. apply foldl_keeps.
  - intros event id state Hty Hstate.
    exists (tick_io (update_state (Event.time event) state)).
    split; [by rewrite lookup_timer, Hstate|].
    destruct (tick_io_frame (update_state (Event.time event) state))
      as (Ht & Ha & Hr & Hs & _).
    destruct (update_state_frame (Event.time event) state)
      as (Ht' & Ha' & Hr' & Hi').
    split_and!; [congruence..|].
    intros Hio. rewrite tick_io_ready by congruence.
    split; [done|].
    by destruct (update_state_ready (Event.time event) state Hio).
Qed.

Lemma remaining_time_frozen_witness :
  Forall (λ event, ¬ is_arrival_of 1 event)
         [timer 1; io_request 1 1; timer 2; io_end 1 2; timer 3;
          arrival 2 9 kHigh 3]
  ∧ foldl handle_event ∅ [arrival 1 20 kNormal 0] !! 1
    = Some (mkTaskState (mkTask 1 20 kNormal) false 20 20 0 0)
  ∧ foldl handle_event (foldl handle_event ∅ [arrival 1 20 kNormal 0])
          [timer 1; io_request 1 1; timer 2; io_end 1 2; timer 3;
           arrival 2 9 kHigh 3] !! 1
    = Some (mkTaskState (mkTask 1 20 kNormal) false 20 (-3) 0 2)
  ∧ remaining_time (mkTaskState (mkTask 1 20 kNormal) false 20 (-3) 0 2)
    = remaining_time (mkTaskState (mkTask 1 20 kNormal) false 20 20 0 0).
Proof.
  assert (Hnone : Forall (λ event, ¬ is_arrival_of 1 event)
                    [timer 1; io_request 1 1; timer 2; io_end 1 2; timer 3;
                     arrival 2 9 kHigh 3]).
  { repeat constructor; intros [Hty Hid]; simpl in *;
      first [discriminate Hty | lia]. }
  split; [exact Hnone|]. split; [vm_compute; reflexivity|].
  split; [vm_compute; reflexivity|].
  destruct (remaining_time_frozen
              (foldl handle_event ∅ [arrival 1 20 kNormal 0]))
    as (_ & Hfrozen & _).
  apply (Hfrozen [timer 1; io_request 1 1; timer 2; io_end 1 2; timer 3;
                  arrival 2 9 kHigh 3] 1).
  - exact Hnone.
  - vm_compute. reflexivity.
  - vm_compute. reflexivity.
Defined.

(** ** Decisions on an empty table, and on both resources *)

Lemma ready_tasks_empty : ready_tasks ∅ = [].
Proof. unfold ready_tasks. by rewrite map_to_list_empty. Qed.

(** Two calls in a row.  The first leaves task 1 doing IO and dispatches
    it to the device; the batch of the second is the Finish event of
    task 1, while the caller still reports it on the IO device. *)
Lemma idle_on_empty_table_counterexample :
  (policy ∅ [arrival 1 20 kNormal 0; io_request 1 0] 0 0).2 = mkAction 0 1
  ∧ (policy (policy ∅ [arrival 1 20 kNormal 0; io_request 1 0] 0 0).1
            [finish 1 3] 0 1).1 = ∅
  ∧ ¬ (cpuTask
         (policy (policy ∅ [arrival 1 20 kNormal 0; io_request 1 0] 0 0).1
                 [finish 1 3] 0 1).2 = 0
       ∧ ioTask
           (policy (policy ∅ [arrival 1 20 kNormal 0; io_request 1 0] 0 0).1
                   [finish 1 3] 0 1).2 = 0).
Proof.
  split; [vm_compute; reflexivity|]. split; [vm_compute; reflexivity|].
  intros [_ Hio]. vm_compute in Hio. discriminate Hio.
Qed.

(** C6 — Idle on empty table, as the code has it.  For every call to
    [policy] whose event batch leaves the table empty, the returned
    [cpuTask] is 0 and the returned [ioTask] is the caller-supplied
    [current_io]: 0 when the caller reports the IO device free, the echoed
    id otherwise. *)
Theorem idle_on_empty_table task_states events current_cpu current_io :
  (policy task_states events current_cpu current_io).1 = ∅ →
  cpuTask (policy task_states events current_cpu current_io).2 = 0
  ∧ ioTask (policy task_states events current_cpu current_io).2 = current_io
  ∧ (current_io = 0 →
     (policy task_states events current_cpu current_io).2 = mkAction 0 0).
Proof.
  rewrite policy_table. intros Hempty.
  assert (Hcpu : cpuTask (policy task_states events current_cpu current_io).2
                 = 0).
  { rewrite policy_cpuTask. simpl. rewrite Hempty.
    by rewrite ready_tasks_empty. }
  assert (Hio : ioTask (policy task_states events current_cpu current_io).2
                = current_io).
  { destruct (decide (current_io = 0)) as [->|Hbusy].
    - rewrite policy_ioTask_free. simpl. rewrite Hempty.
      unfold io_tasks. by rewrite map_to_list_empty.
    - by apply policy_ioTask_busy. }
  split_and!; [done..|]. intros ->.
  destruct (policy task_states events current_cpu 0).2 as [cpu io].
  simpl in *. congruence.
Qed.

Lemma idle_on_empty_table_witness :
  (policy ∅ [arrival 1 20 kNormal 0; finish 1 1] 0 0).1 = ∅
  ∧ (policy ∅ [arrival 1 20 kNormal 0; finish 1 1] 0 0).2 = mkAction 0 0.
Proof.
  split; [vm_compute; reflexivity|].
  destruct (idle_on_empty_table ∅ [arrival 1 20 kNormal 0; finish 1 1] 0 0)
    as (_ & _ & Hidle).
  - vm_compute. reflexivity.
  - apply Hidle. reflexivity.
Defined.

(** Two calls in a row.  The first leaves task 1 doing IO and dispatches
    it to the device; the batch of the second ends that IO while the caller
    still reports task 1 on the device, and task 1 gets both resources. *)
Lemma both_resources_counterexample :
  (policy ∅ [arrival 1 20 kNormal 0; io_request 1 0] 0 0).2 = mkAction 0 1
  ∧ cpuTask
      (policy (policy ∅ [arrival 1 20 kNormal 0; io_request 1 0] 0 0).1
              [io_end 1 5] 0 1).2
    = ioTask
        (policy (policy ∅ [arrival 1 20 kNormal 0; io_request 1 0] 0 0).1
                [io_end 1 5] 0 1).2
  ∧ cpuTask
      (policy (policy ∅ [arrival 1 20 kNormal 0; io_request 1 0] 0 0).1
              [io_end 1 5] 0 1).2 ≠ 0.
Proof. vm_compute. split_and!; [reflexivity..|discriminate]. Qed.

(** C7 — Both-resources guard, as the code has it.  For every call to
    [policy] on a table whose records are filed under their own ids, the
    decision never gives the same non-zero task id to [cpuTask] and
    [ioTask] when [current_io = 0], nor when [current_io ≠ 0] and the
    record of [current_io] is doing IO or is absent after the batch: the
    CPU choice is always a record that is not doing IO.  The only
    decisions with [cpuTask = ioTask ≠ 0] are those of a call with
    [current_io ≠ 0] whose record is ready after the batch and is itself
    the CPU choice; the echoed id is not checked against it. *)
Theorem both_resources_guard task_states events current_cpu current_io :
  table_wf task_states →
  let after := (policy task_states events current_cpu current_io).1 in
  let action := (policy task_states events current_cpu current_io).2 in
  ((current_io = 0
    ∨ ∀ r, after !! current_io = Some r → is_io_active r = true) →
   ¬ (cpuTask action = ioTask action ∧ cpuTask action ≠ 0))
  ∧ (cpuTask action = ioTask action ∧ cpuTask action ≠ 0 →
     current_io ≠ 0 ∧ cpuTask action = current_io
     ∧ ∃ r, after !! current_io = Some r ∧ is_io_active r = false).
Proof.
  intros Hwf after action.
  assert (Hafter : table_wf after) by by apply table_wf_foldl.
  assert (Hcpu : cpuTask action
                 = front_id (std_sort (compare_priority_urgency after)
                                      (ready_tasks after))) by done.
  assert (Honly : cpuTask action = ioTask action ∧ cpuTask action ≠ 0 →
                  current_io ≠ 0 ∧ cpuTask action = current_io
                  ∧ ∃ r, after !! current_io = Some r
                         ∧ is_io_active r = false).
  { intros [Hsame Hnonzero].
    destruct (cpu_front after Hafter) as [[_ Hzero]|(r0 & Hr0 & Hio0 & _)];
      cbv zeta in *; [congruence|].
    rewrite <-Hcpu in Hr0.
    destruct (decide (current_io = 0)) as [Hfree|Hbusy].
    - exfalso. subst current_io.
      assert (Hio : ioTask action
                    = front_id (std_sort (compare_io after)
                                         (io_tasks after current_cpu)))
        by done.
      destruct (io_front after current_cpu Hafter)
        as [[_ Hzero]|(r1 & Hr1 & Hio1 & _)]; cbv zeta in *.
      + congruence.
      + rewrite <-Hio, <-Hsame in Hr1. congruence.
    - assert (Hecho : ioTask action = current_io)
        by by apply policy_ioTask_busy.
      split_and!; [done|congruence|].
      exists r0. split; [|done]. by rewrite <-Hecho, <-Hsame. }
  split; [|exact Honly].
  intros Hguard Hboth.
  destruct (Honly Hboth) as (Hbusy & _ & r & Hr & Hready).
  destruct Hguard as [Hfree|Hactive]; [done|].
  apply Hactive in Hr. congruence.
Qed.

Lemma both_resources_guard_witness :
  table_wf ∅
  ∧ ((1 : Z) = 0
     ∨ ∀ r,
         (policy ∅ [arrival 1 20 kNormal 0; arrival 2 9 kHigh 0;
                    io_request 1 1; timer 2] 2 1).1 !! 1 = Some r →
         is_io_active r = true)
  ∧ ¬ (cpuTask (policy ∅ [arrival 1 20 kNormal 0; arrival 2 9 kHigh 0;
                          io_request 1 1; timer 2] 2 1).2
       = ioTask (policy ∅ [arrival 1 20 kNormal 0; arrival 2 9 kHigh 0;
                           io_request 1 1; timer 2] 2 1).2
       ∧ cpuTask (policy ∅ [arrival 1 20 kNormal 0; arrival 2 9 kHigh 0;
                            io_request 1 1; timer 2] 2 1).2 ≠ 0).
Proof.
  assert (Hactive :
            (1 : Z) = 0
            ∨ ∀ r,
                (policy ∅ [arrival 1 20 kNormal 0; arrival 2 9 kHigh 0;
                           io_request 1 1; timer 2] 2 1).1 !! 1 = Some r →
                is_io_active r = true).
  { right. intros r Hr. vm_compute in Hr. injection Hr as <-. reflexivity. }
  split; [exact table_wf_empty|]. split; [exact Hactive|].
  destruct (both_resources_guard
              ∅ [arrival 1 20 kNormal 0; arrival 2 9 kHigh 0;
                 io_request 1 1; timer 2] 2 1 table_wf_empty)
    as [Hguard _].
  apply Hguard. exact Hactive.
Defined.

(** C10 — Stale IO echo.  There is a call with [current_io ≠ 0] in which
    [policy] returns [ioTask = current_io] although the table holds no
    record for that id after the batch: the table of a first call has
    task 1 doing IO, and the second call's batch is the Finish event of
    task 1.  In general the echo happens whether or not the table has a
    record for [current_io]. *)
Theorem stale_io_echo :
  (∃ task_states events current_cpu current_io,
     task_states = (policy ∅ [arrival 1 20 kNormal 0; io_request 1 0] 0 0).1
     ∧ events = [finish 1 3]
     ∧ current_io ≠ 0
     ∧ is_Some (task_states !! current_io)
     ∧ ioTask (policy task_states events current_cpu current_io).2
       = current_io
     ∧ (policy task_states events current_cpu current_io).1 !! current_io
       = None)
  ∧ (∀ task_states events current_cpu current_io,
       current_io ≠ 0 →
       (policy task_states events current_cpu current_io).1 !! current_io
       = None →
       ioTask (policy task_states events current_cpu current_io).2
       = current_io).
Proof.
  split.
  - exists (policy ∅ [arrival 1 20 kNormal 0; io_request 1 0] 0 0).1,
           [finish 1 3], 0, 1.
    split_and!; [done|done|lia| |by apply policy_ioTask_busy|].
    + vm_compute. eauto.
    + vm_compute. reflexivity.
  - intros task_states events current_cpu current_io Hbusy _.
    by apply policy_ioTask_busy.
Qed.

Lemma stale_io_echo_witness :
  4 ≠ 0
  ∧ (policy ∅ [arrival 1 20 kNormal 0] 1 4).1 !! 4 = None
  ∧ ioTask (policy ∅ [arrival 1 20 kNormal 0] 1 4).2 = 4.
Proof.
  split; [lia|]. split; [vm_compute; reflexivity|].
  destruct stale_io_echo as [_ Hecho].
  apply (Hecho ∅ [arrival 1 20 kNormal 0] 1 4).
  - lia.
  - vm_compute. reflexivity.
Defined.

(** * Further properties of the policy *)

(** ** The comparators meet the requirement of [std::sort] *)

(** X1 — [compare_priority_urgency], over any table, is a strict weak
    ordering: irreflexive, asymmetric, transitive, and with a transitive
    "neither goes first" relation.  This is what [std::sort] demands of
    its comparator. *)
Theorem compare_priority_urgency_strict_weak task_states :
  let comp := compare_priority_urgency task_states in
  (∀ a, comp a a = false)
  ∧ (∀ a b, comp a b = true → comp b a = false)
  ∧ (∀ a b c, comp a b = true → comp b c = true → comp a c = true)
  ∧ (∀ a b c, comp a b = false → comp b a = false →
              comp b c = false → comp c b = false →
              comp a c = false ∧ comp c a = false).
Proof.
  intros comp. subst comp. split_and!.
  - apply compare_priority_urgency_irrefl.
  - intros a b. apply comp_asym.
    + apply compare_priority_urgency_irrefl.
    + apply compare_priority_urgency_trans.
  - apply compare_priority_urgency_trans.
  - intros a b c. unfold compare_priority_urgency, compare_urgency.
    destruct (priority_cases (priority a)) as [-> | ->],
             (priority_cases (priority b)) as [-> | ->],
             (priority_cases (priority c)) as [-> | ->]; simpl;
      intros Hab Hba Hbc Hcb; split; order_cases.
Qed.

Lemma compare_priority_urgency_strict_weak_witness :
  compare_priority_urgency
    (foldl handle_event ∅ [arrival 1 20 kHigh 0; arrival 2 9 kNormal 0])
    (mkTask 1 20 kHigh) (mkTask 2 9 kNormal) = true
  ∧ compare_priority_urgency
      (foldl handle_event ∅ [arrival 1 20 kHigh 0; arrival 2 9 kNormal 0])
      (mkTask 2 9 kNormal) (mkTask 1 20 kHigh) = false.
Proof.
  split; [vm_compute; reflexivity|].
  destruct (compare_priority_urgency_strict_weak
              (foldl handle_event ∅
                     [arrival 1 20 kHigh 0; arrival 2 9 kNormal 0]))
    as (_ & Hasym & _).
  apply Hasym. vm_compute. reflexivity.
Defined.

(** X2 — the comparator of the IO queue, over any table, is a strict weak
    ordering as well. *)
Theorem compare_io_strict_weak task_states :
  let comp := compare_io task_states in
  (∀ a, comp a a = false)
  ∧ (∀ a b, comp a b = true → comp b a = false)
  ∧ (∀ a b c, comp a b = true → comp b c = true → comp a c = true)
  ∧ (∀ a b c, comp a b = false → comp b a = false →
              comp b c = false → comp c b = false →
              comp a c = false ∧ comp c a = false).
Proof.
  intros comp. subst comp. split_and!.
  - apply compare_io_irrefl.
  - intros a b. apply comp_asym.
    + apply compare_io_irrefl.
    + apply compare_io_trans.
  - apply compare_io_trans.
  - intros a b c. unfold compare_io.
    destruct (priority_cases (priority a)) as [-> | ->],
             (priority_cases (priority b)) as [-> | ->],
             (priority_cases (priority c)) as [-> | ->]; simpl;
      intros Hab Hba Hbc Hcb; split; order_cases.
Qed.

Lemma compare_io_strict_weak_witness :
  compare_io
    (foldl handle_event ∅ [arrival 1 20 kNormal 0; arrival 2 9 kNormal 0;
                           io_request 1 1; timer 2; io_request 2 2])
    (mkTask 1 20 kNormal) (mkTask 2 9 kNormal) = true
  ∧ compare_io
      (foldl handle_event ∅ [arrival 1 20 kNormal 0; arrival 2 9 kNormal 0;
                             io_request 1 1; timer 2; io_request 2 2])
      (mkTask 2 9 kNormal) (mkTask 1 20 kNormal) = false.
Proof.
  split; [vm_compute; reflexivity|].
  destruct (compare_io_strict_weak
              (foldl handle_event ∅
                     [arrival 1 20 kNormal 0; arrival 2 9 kNormal 0;
                      io_request 1 1; timer 2; io_request 2 2]))
    as (_ & Hasym & _).
  apply Hasym. vm_compute. reflexivity.
Defined.

(** ** Who can be chosen *)

(** X3 — Priority dominance on the CPU.  On a table whose records are
    filed under their own ids, as soon as one ready record has high
    priority the task [policy] returns as [cpuTask] is a ready
    high-priority task, whatever the urgency levels and slack times. *)
Theorem cpu_priority_dominance task_states events current_cpu current_io
    id r :
  table_wf task_states →
  let after := (policy task_states events current_cpu current_io).1 in
  let chosen := cpuTask (policy task_states events current_cpu current_io).2 in
  after !! id = Some r → is_io_active r = false →
  priority (task r) = kHigh →
  ∃ r0, after !! chosen = Some r0 ∧ is_io_active r0 = false
        ∧ priority (task r0) = kHigh.
Proof.
  intros Hwf after chosen Hr Hio Hhigh.
  assert (Hafter : table_wf after) by by apply table_wf_foldl.
  destruct (cpu_front after Hafter) as [[Hnil _]|(r0 & Hr0 & Hio0 & Hmax)].
  - assert (Hin : task r ∈ ready_tasks after)
      by (apply elem_of_ready_tasks; eauto).
    rewrite Hnil in Hin. by apply elem_of_nil in Hin.
  - exists r0. split_and!; [done..|].
    destruct (priority_cases (priority (task r0))) as [?|Hnormal]; [done|].
    destruct (Hmax id r Hr Hio). left. done.
Qed.

Lemma cpu_priority_dominance_witness :
  table_wf ∅
  ∧ (policy ∅ [arrival 1 9 kNormal 0; arrival 2 90 kHigh 0; timer 5] 0 0).1
      !! 2 = Some (mkTaskState (mkTask 2 90 kHigh) false 90 (-5) 0 2)
  ∧ ∃ r0,
      (policy ∅ [arrival 1 9 kNormal 0; arrival 2 90 kHigh 0; timer 5] 0 0).1
        !! cpuTask (policy ∅ [arrival 1 9 kNormal 0; arrival 2 90 kHigh 0;
                              timer 5] 0 0).2 = Some r0
      ∧ is_io_active r0 = false ∧ priority (task r0) = kHigh.
Proof.
  split; [exact table_wf_empty|]. split; [vm_compute; reflexivity|].
  apply (cpu_priority_dominance
           ∅ [arrival 1 9 kNormal 0; arrival 2 90 kHigh 0; timer 5] 0 0
           2 (mkTaskState (mkTask 2 90 kHigh) false 90 (-5) 0 2)).
  - exact table_wf_empty.
  - vm_compute. reflexivity.
  - reflexivity.
  - reflexivity.
Defined.

(** X4 — Priority dominance on the IO device.  With [current_io = 0], as
    soon as one IO-active record other than [current_cpu] has high
    priority, the task returned as [ioTask] is an IO-active high-priority
    task, whatever the [io_remaining] values. *)
Theorem io_priority_dominance task_states events current_cpu id r :
  table_wf task_states →
  let after := (policy task_states events current_cpu 0).1 in
  let chosen := ioTask (policy task_states events current_cpu 0).2 in
  after !! id = Some r → is_io_active r = true → id ≠ current_cpu →
  priority (task r) = kHigh →
  ∃ r0, after !! chosen = Some r0 ∧ is_io_active r0 = true
        ∧ priority (task r0) = kHigh.
Proof.
  intros Hwf after chosen Hr Hio Hne Hhigh.
  assert (Hafter : table_wf after) by by apply table_wf_foldl.
  destruct (io_front after current_cpu Hafter)
    as [[Hnil _]|(r0 & Hr0 & Hio0 & _ & Hmax)].
  - assert (Hin : task r ∈ io_tasks after current_cpu)
      by (apply elem_of_io_tasks; eauto 10).
    rewrite Hnil in Hin. by apply elem_of_nil in Hin.
  - exists r0. split_and!; [done..|].
    destruct (priority_cases (priority (task r0))) as [?|Hnormal]; [done|].
    destruct (Hmax id r Hr Hio Hne). left. done.
Qed.

Lemma io_priority_dominance_witness :
  table_wf ∅
  ∧ (policy ∅ [arrival 1 9 kNormal 0; arrival 2 90 kHigh 0; io_request 1 1;
               timer 2; timer 3; io_request 2 3] 0 0).1
      !! 2 = Some (mkTaskState (mkTask 2 90 kHigh) true 90 (-3) 10 2)
  ∧ 2 ≠ 0
  ∧ ∃ r0,
      (policy ∅ [arrival 1 9 kNormal 0; arrival 2 90 kHigh 0; io_request 1 1;
                 timer 2; timer 3; io_request 2 3] 0 0).1
        !! ioTask (policy ∅ [arrival 1 9 kNormal 0; arrival 2 90 kHigh 0;
                             io_request 1 1; timer 2; timer 3;
                             io_request 2 3] 0 0).2 = Some r0
      ∧ is_io_active r0 = true ∧ priority (task r0) = kHigh.
Proof.
  split; [exact table_wf_empty|]. split; [vm_compute; reflexivity|].
  split; [lia|].
  apply (io_priority_dominance
           ∅ [arrival 1 9 kNormal 0; arrival 2 90 kHigh 0; io_request 1 1;
              timer 2; timer 3; io_request 2 3] 0
           2 (mkTaskState (mkTask 2 90 kHigh) true 90 (-3) 10 2)).
  - exact table_wf_empty.
  - vm_compute. reflexivity.
  - reflexivity.
  - lia.
  - reflexivity.
Defined.

(** X5 — Exclusions.  On a table whose records are filed under their own
    ids, a task whose record is doing IO after the batch is never returned
    as [cpuTask] (unless its id is 0, the idle value), and with
    [current_io = 0] a non-zero [current_cpu] is never returned as
    [ioTask]. *)
Theorem policy_exclusions task_states events current_cpu current_io :
  table_wf task_states →
  let after := (policy task_states events current_cpu current_io).1 in
  (∀ id r, after !! id = Some r → is_io_active r = true → id ≠ 0 →
           cpuTask (policy task_states events current_cpu current_io).2 ≠ id)
  ∧ (current_cpu ≠ 0 →
     ioTask (policy task_states events current_cpu 0).2 ≠ current_cpu).
Proof.
  intros Hwf after.
  assert (Hafter : table_wf after) by by apply table_wf_foldl.
  split.
  - intros id r Hr Hio Hnz Heq.
    change (cpuTask (policy task_states events current_cpu current_io).2)
      with (front_id (std_sort (compare_priority_urgency after)
                               (ready_tasks after))) in Heq.
    destruct (cpu_front after Hafter) as [[_ Hz]|(r0 & Hr0 & Hio0 & _)];
      simpl in *; [congruence|].
    rewrite Heq in Hr0. congruence.
  - intros Hnz Heq.
    change (ioTask (policy task_states events current_cpu 0).2)
      with (front_id (std_sort (compare_io after)
                               (io_tasks after current_cpu))) in Heq.
    destruct (io_front after current_cpu Hafter)
      as [[_ Hz]|(r0 & _ & _ & Hne & _)]; simpl in *; congruence.
Qed.

Lemma policy_exclusions_witness :
  table_wf ∅
  ∧ (policy ∅ [arrival 1 9 kHigh 0; arrival 2 90 kNormal 0; io_request 1 1]
            0 0).1 !! 1
    = Some (mkTaskState (mkTask 1 9 kHigh) true 9 9 10 0)
  ∧ (1 : Z) ≠ 0
  ∧ cpuTask (policy ∅ [arrival 1 9 kHigh 0; arrival 2 90 kNormal 0;
                       io_request 1 1] 0 0).2 ≠ 1.
Proof.
  split; [exact table_wf_empty|]. split; [vm_compute; reflexivity|].
  split; [lia|].
  destruct (policy_exclusions
              ∅ [arrival 1 9 kHigh 0; arrival 2 90 kNormal 0; io_request 1 1]
              0 0 table_wf_empty) as [Hcpu _].
  apply (Hcpu 1 (mkTaskState (mkTask 1 9 kHigh) true 9 9 10 0)).
  - vm_compute. reflexivity.
  - reflexivity.
  - lia.
Defined.

(** ** Events touch one record, and only Arrival and Finish move keys *)

(** X6 — Frame.  An Arrival, Finish, IoRequest or IoEnd event for one task
    id leaves the record of every other id exactly as it was (present or
    absent). *)
Theorem handle_event_frame task_states event id :
  Event.type event ≠ kTimer →
  taskId (Event.task event) ≠ id →
  handle_event task_states event !! id = task_states !! id.
Proof.
  intros Hty Hne. destruct (Event.type event) eqn:Hcase; [..|done].
  - by apply lookup_arrival_ne.
  - rewrite lookup_finish by done. by case_decide.
  - rewrite lookup_io_request by done. by case_decide.
  - rewrite lookup_io_end by done. by case_decide.
Qed.

Lemma handle_event_frame_witness :
  Event.type (io_request 1 4) ≠ kTimer
  ∧ taskId (Event.task (io_request 1 4)) ≠ 2
  ∧ handle_event
      (foldl handle_event ∅ [arrival 1 20 kNormal 0; arrival 2 9 kHigh 0])
      (io_request 1 4) !! 2
    = foldl handle_event ∅ [arrival 1 20 kNormal 0; arrival 2 9 kHigh 0]
        !! 2.
Proof.
  split; [discriminate|]. split; [simpl; lia|].
  apply (handle_event_frame
           (foldl handle_event ∅
                  [arrival 1 20 kNormal 0; arrival 2 9 kHigh 0])
           (io_request 1 4) 2).
  - discriminate.
  - simpl. lia.
Defined.

(** X7 — Key set.  An Arrival adds the task's id to the keys of the table,
    a Finish removes it, and IoRequest, IoEnd and Timer events leave the
    set of keys as it is: no event but Finish ever removes a record, and
    none but Arrival creates one. *)
Theorem handle_event_dom task_states event :
  dom (handle_event task_states event)
  = match Event.type event with
    | kTaskArrival => {[taskId (Event.task event)]} ∪ dom task_states
    | kTaskFinish => dom task_states ∖ {[taskId (Event.task event)]}
    | kIoRequest | kIoEnd | kTimer => dom task_states
    end.
Proof.
  unfold handle_event, update_task_states.
  destruct (Event.type event).
  - apply dom_insert_L.
  - apply dom_delete_L.
  - case_bool_decide; [apply dom_alter_L|done].
  - case_bool_decide; [apply dom_alter_L|done].
  - by rewrite !dom_fmap_L.
Qed.

(** ** Round trips *)

(** X8 — Arrival then Finish.  An Arrival followed by the Finish of the
    same task id leaves the table without a record for that id, and
    otherwise as it was; when the id had no record before, the table is
    back to exactly what it was. *)
Theorem arrival_finish_round_trip task_states arrive done_ :
  Event.type arrive = kTaskArrival →
  Event.type done_ = kTaskFinish →
  taskId (Event.task done_) = taskId (Event.task arrive) →
  handle_event (handle_event task_states arrive) done_
  = delete (taskId (Event.task arrive)) task_states
  ∧ (task_states !! taskId (Event.task arrive) = None →
     handle_event (handle_event task_states arrive) done_ = task_states).
Proof.
  intros Ha Hf Hid.
  assert (Heq : handle_event (handle_event task_states arrive) done_
                = delete (taskId (Event.task arrive)) task_states).
  { unfold handle_event. rewrite Ha, Hf, Hid. apply delete_insert_eq. }
  split; [done|]. intros Hnone. rewrite Heq. by apply delete_id.
Qed.

Lemma arrival_finish_round_trip_witness :
  Event.type (arrival 2 9 kHigh 3) = kTaskArrival
  ∧ Event.type (finish 2 4) = kTaskFinish
  ∧ taskId (Event.task (finish 2 4)) = taskId (Event.task (arrival 2 9 kHigh 3))
  ∧ foldl handle_event ∅ [arrival 1 20 kNormal 0] !! 2 = None
  ∧ handle_event
      (handle_event (foldl handle_event ∅ [arrival 1 20 kNormal 0])
                    (arrival 2 9 kHigh 3))
      (finish 2 4)
    = foldl handle_event ∅ [arrival 1 20 kNormal 0].
Proof.
  split_and!; [reflexivity|reflexivity|reflexivity|vm_compute; reflexivity|].
  destruct (arrival_finish_round_trip
              (foldl handle_event ∅ [arrival 1 20 kNormal 0])
              (arrival 2 9 kHigh 3) (finish 2 4)) as [_ Hback].
  - reflexivity.
  - reflexivity.
  - reflexivity.
  - apply Hback. vm_compute. reflexivity.
Defined.

(** X9 — IoRequest then IoEnd.  For a task with a record, an IoRequest
    followed by its IoEnd changes nothing but that record, which ends not
    doing IO with [io_remaining] 0 and every other field untouched; when
    the record was already in that IO state the table is back to exactly
    what it was. *)
Theorem io_request_end_round_trip task_states request end_ state :
  Event.type request = kIoRequest →
  Event.type end_ = kIoEnd →
  taskId (Event.task end_) = taskId (Event.task request) →
  task_states !! taskId (Event.task request) = Some state →
  handle_event (handle_event task_states request) end_
  = <[taskId (Event.task request) := set_io false 0 state]> task_states
  ∧ (is_io_active state = false → io_remaining state = 0 →
     handle_event (handle_event task_states request) end_ = task_states).
Proof.
  intros Hr He Hid Hstate.
  assert (Heq : handle_event (handle_event task_states request) end_
                = <[taskId (Event.task request) := set_io false 0 state]>
                    task_states).
  { apply map_eq. intros id.
    rewrite lookup_io_end, lookup_io_request, Hid by done.
    destruct (decide (taskId (Event.task request) = id)) as [<-|Hne].
    - by rewrite Hstate, lookup_insert_eq.
    - by rewrite lookup_insert_ne. }
  split; [done|]. intros Hio Hrem. rewrite Heq. apply insert_id.
  rewrite Hstate. f_equal. destruct state; simpl in *. by subst.
Qed.

Lemma io_request_end_round_trip_witness :
  Event.type (io_request 1 4) = kIoRequest
  ∧ Event.type (io_end 1 6) = kIoEnd
  ∧ taskId (Event.task (io_end 1 6)) = taskId (Event.task (io_request 1 4))
  ∧ foldl handle_event ∅ [arrival 1 20 kNormal 0; timer 3]
      !! taskId (Event.task (io_request 1 4))
    = Some (mkTaskState (mkTask 1 20 kNormal) false 20 (-3) 0 2)
  ∧ handle_event
      (handle_event (foldl handle_event ∅ [arrival 1 20 kNormal 0; timer 3])
                    (io_request 1 4))
      (io_end 1 6)
    = foldl handle_event ∅ [arrival 1 20 kNormal 0; timer 3].
Proof.
  split_and!; [reflexivity|reflexivity|reflexivity|vm_compute; reflexivity|].
  destruct (io_request_end_round_trip
              (foldl handle_event ∅ [arrival 1 20 kNormal 0; timer 3])
              (io_request 1 4) (io_end 1 6)
              (mkTaskState (mkTask 1 20 kNormal) false 20 (-3) 0 2))
    as [_ Hback].
  - reflexivity.
  - reflexivity.
  - reflexivity.
  - vm_compute. reflexivity.
  - apply Hback; reflexivity.
Defined.

(** ** [update_task_states] keeps no memory *)

Lemma update_state_overrides t1 t2 state :
  update_state t2 (update_state t1 state) = update_state t2 state.
Proof.
  unfold update_state.
  destruct (is_io_active state) eqn:Hio; simpl; rewrite ?Hio; done.
Qed.

(** X10 — [update_task_states] overwrites what an earlier call computed:
    running it for time [t1] and then for [t2] gives the table that
    running it for [t2] alone gives.  In particular it is idempotent at a
    given time, and no urgency level survives from one call to the
    next. *)
Theorem update_task_states_overrides t1 t2 task_states :
  update_task_states t2 (update_task_states t1 task_states)
  = update_task_states t2 task_states
  ∧ update_task_states t1 (update_task_states t1 task_states)
    = update_task_states t1 task_states.
Proof.
  assert (Hgen : ∀ a b, update_task_states b (update_task_states a task_states)
                        = update_task_states b task_states).
  { intros a b. unfold update_task_states. apply map_eq. intros id.
    rewrite !lookup_fmap. destruct (task_states !! id); simpl; [|done].
    by rewrite update_state_overrides. }
  split; apply Hgen.
Qed.

(** ** Invariants of the tables the program builds *)

Lemma record_invariant_handle_event task_states event :
  map_Forall (λ _ state,
                0 ≤ urgency_level state ≤ 2
                ∧ (is_io_active state = false → io_remaining state = 0))
             task_states →
  map_Forall (λ _ state,
                0 ≤ urgency_level state ≤ 2
                ∧ (is_io_active state = false → io_remaining state = 0))
             (handle_event task_states event).
Proof.
  intros Hinv id state. specialize (Hinv id).
  destruct (Event.type event) eqn:Hty.
  - destruct (decide (taskId (Event.task event) = id)) as [<-|Hne].
    + unfold handle_event. rewrite Hty, lookup_insert_eq.
      intros [= <-]. simpl. split; [lia|done].
    + rewrite lookup_arrival_ne by done. apply Hinv.
  - rewrite lookup_finish by done. case_decide; [done|apply Hinv].
  - rewrite lookup_io_request by done. case_decide; [|apply Hinv].
    destruct (task_states !! id) as [old|]; simpl; [|done].
    intros [= <-]. simpl. destruct (Hinv old eq_refl). done.
  - rewrite lookup_io_end by done. case_decide; [|apply Hinv].
    destruct (task_states !! id) as [old|]; simpl; [|done].
    intros [= <-]. simpl. destruct (Hinv old eq_refl). done.
  - rewrite lookup_timer by done.
    destruct (task_states !! id) as [old|]; simpl; [|done].
    intros [= <-]. destruct (Hinv old eq_refl) as [Hu Hidle].
    destruct (is_io_active old) eqn:Hio.
    + rewrite update_state_io by done.
      destruct (tick_io_frame old) as (_ & -> & _ & _ & ->).
      split; [done|congruence].
    + destruct (update_state_frame (Event.time event) old)
        as (_ & Ha & _ & Hi).
      rewrite tick_io_ready by congruence.
      destruct (update_state_ready (Event.time event) old Hio) as [_ ->].
      rewrite Hi. split; [|auto].
      unfold urgency_rule, base_tier. repeat case_decide; lia.
Qed.

Lemma record_invariant_reachable history id state :
  foldl handle_event ∅ history !! id = Some state →
  0 ≤ urgency_level state ≤ 2
  ∧ (is_io_active state = false → io_remaining state = 0).
Proof.
  assert (Hgen : ∀ events task_states,
            map_Forall (λ _ state,
                          0 ≤ urgency_level state ≤ 2
                          ∧ (is_io_active state = false →
                             io_remaining state = 0)) task_states →
            map_Forall (λ _ state,
                          0 ≤ urgency_level state ≤ 2
                          ∧ (is_io_active state = false →
                             io_remaining state = 0))
                       (foldl handle_event task_states events)).
  { induction events as [|event events IH]; intros task_states Hinv; [done|].
    simpl. by apply IH, record_invariant_handle_event. }
  apply (Hgen history ∅). apply map_Forall_empty.
Qed.

(** X11 — Urgency range.  In every table that an event sequence builds
    from the empty table, the urgency level of every record is 0, 1
    or 2. *)
Theorem urgency_level_range history id state :
  foldl handle_event ∅ history !! id = Some state →
  urgency_level state = 0 ∨ urgency_level state = 1
  ∨ urgency_level state = 2.
Proof.
  intros Hstate.
  destruct (record_invariant_reachable history id state Hstate) as [Hu _].
  lia.
Qed.

Lemma urgency_level_range_witness :
  foldl handle_event ∅ [arrival 1 20 kHigh 0; timer 3] !! 1
  = Some (mkTaskState (mkTask 1 20 kHigh) false 20 (-3) 0 2)
  ∧ (urgency_level (mkTaskState (mkTask 1 20 kHigh) false 20 (-3) 0 2) = 0
     ∨ urgency_level (mkTaskState (mkTask 1 20 kHigh) false 20 (-3) 0 2) = 1
     ∨ urgency_level (mkTaskState (mkTask 1 20 kHigh) false 20 (-3) 0 2)
       = 2).
Proof.
  split; [vm_compute; reflexivity|].
  apply (urgency_level_range [arrival 1 20 kHigh 0; timer 3] 1).
  vm_compute. reflexivity.
Defined.

(** X12 — Idle IO counter.  In every table that an event sequence builds
    from the empty table, a record that is not doing IO has
    [io_remaining = 0]: the counter is non-zero only between an IoRequest
    and the IoEnd (or the re-arrival) that follows it. *)
Theorem io_remaining_zero_when_idle history id state :
  foldl handle_event ∅ history !! id = Some state →
  is_io_active state = false → io_remaining state = 0.
Proof.
  intros Hstate.
  by destruct (record_invariant_reachable history id state Hstate).
Qed.

Lemma io_remaining_zero_when_idle_witness :
  foldl handle_event ∅ [arrival 1 20 kHigh 0; io_request 1 1; timer 2;
                        io_end 1 3] !! 1
  = Some (mkTaskState (mkTask 1 20 kHigh) false 20 20 0 0)
  ∧ is_io_active (mkTaskState (mkTask 1 20 kHigh) false 20 20 0 0) = false
  ∧ io_remaining (mkTaskState (mkTask 1 20 kHigh) false 20 20 0 0) = 0.
Proof.
  split; [vm_compute; reflexivity|]. split; [reflexivity|].
  apply (io_remaining_zero_when_idle
           [arrival 1 20 kHigh 0; io_request 1 1; timer 2; io_end 1 3] 1).
  - vm_compute. reflexivity.
  - reflexivity.
Defined.

(** ** The IO countdown over several ticks *)

Lemma tick_io_active state :
  is_io_active state = true → 0 ≤ io_remaining state ≤ int_max →
  tick_io state
  = set_io true (Z.max 0 (io_remaining state - 1)) state
  ∨ (io_remaining state = 0 ∧ tick_io state = state).
Proof.
  intros Hio Hrange. unfold tick_io. rewrite Hio. simpl.
  destruct (Z.ltb_spec 0 (io_remaining state)).
  - left. rewrite int_sub_pred by lia. by rewrite Z.max_r by lia.
  - right. split; [lia|done].
Qed.

(** X13 — Countdown.  While a record is doing IO, a run of [n] Timer
    events (whatever their timestamps) takes [io_remaining] from [r] to
    [max 0 (r − n)] and changes nothing else in the record: the counter
    stops at 0 and the task stays IO-active until an IoEnd arrives. *)
Theorem io_countdown ticks task_states id state :
  Forall (λ event, Event.type event = kTimer) ticks →
  task_states !! id = Some state →
  is_io_active state = true →
  0 ≤ io_remaining state ≤ int_max →
  foldl handle_event task_states ticks !! id
  = Some (set_io true
                 (Z.max 0 (io_remaining state - Z.of_nat (length ticks)))
                 state).
Proof.
  intros Hticks. revert task_states state.
  induction Hticks as [|tick ticks Hty _ IH];
    intros task_states state Hstate Hio Hrange.
  - simpl. rewrite Hstate. f_equal. rewrite Z.sub_0_r, Z.max_r by lia.
    destruct state; simpl in *. by subst.
  - simpl foldl.
    change (length (tick :: ticks)) with (S (length ticks)).
    rewrite Nat2Z.inj_succ.
    assert (Hnext : handle_event task_states tick !! id
                    = Some (tick_io state)).
    { rewrite lookup_timer, Hstate by done. simpl.
      by rewrite update_state_io. }
    destruct (tick_io_frame state) as (_ & Hact & _).
    rewrite (IH _ _ Hnext); [|congruence|].
    + set (n := Z.of_nat (length ticks)).
      destruct (tick_io_active state Hio Hrange) as [Heq|[Hzero Heq]];
        rewrite Heq; unfold set_io; cbn [task is_io_active remaining_time
          slack_time io_remaining urgency_level]; do 2 f_equal; lia.
    + destruct (tick_io_active state Hio Hrange) as [Heq|[Hzero Heq]];
        rewrite Heq; unfold set_io; cbn [io_remaining]; lia.
Qed.

Lemma io_countdown_witness :
  Forall (λ event, Event.type event = kTimer) [timer 2; timer 3; timer 4]
  ∧ foldl handle_event ∅ [arrival 1 20 kNormal 0; io_request 1 1] !! 1
    = Some (mkTaskState (mkTask 1 20 kNormal) true 20 20 10 0)
  ∧ foldl handle_event
          (foldl handle_event ∅ [arrival 1 20 kNormal 0; io_request 1 1])
          [timer 2; timer 3; timer 4] !! 1
    = Some (mkTaskState (mkTask 1 20 kNormal) true 20 20 7 0).
Proof.
  assert (Hticks : Forall (λ event, Event.type event = kTimer)
                          [timer 2; timer 3; timer 4])
    by (repeat constructor).
  split; [exact Hticks|]. split; [vm_compute; reflexivity|].
  apply (io_countdown
           [timer 2; timer 3; timer 4]
           (foldl handle_event ∅ [arrival 1 20 kNormal 0; io_request 1 1])
           1 (mkTaskState (mkTask 1 20 kNormal) true 20 20 10 0)).
  - exact Hticks.
  - vm_compute. reflexivity.
  - reflexivity.
  - vm_compute. split; discriminate.
Defined.

(** ** What the slack really measures *)

Lemma int_sub_cancel a b c : int_sub (int_sub a b) (int_sub a c) = int_sub c b.
Proof.
  unfold int_sub, wrap. f_equal.
  replace ((a - b + 2147483648) `mod` 4294967296 - 2147483648
           - ((a - c + 2147483648) `mod` 4294967296 - 2147483648)
           + 2147483648)
    with ((a - b + 2147483648) `mod` 4294967296
          - (a - c + 2147483648) `mod` 4294967296 + 2147483648) by lia.
  rewrite <-Zplus_mod_idemp_l, <-Zminus_mod, Zplus_mod_idemp_l.
  f_equal. lia.
Qed.

(** X14 — Slack is elapsed time.  [remaining_time] is set to
    [deadline − arrival time] and never updated, so for a record that is
    not doing IO a Timer event at time [t] sets [slack_time] to
    [arrival time − t], whatever the deadline: once a tick happens at or
    after the arrival time the slack is at most 0 and the urgency level
    is 2. *)
Theorem slack_is_elapsed_time task_states arrive between tick state :
  Event.type arrive = kTaskArrival →
  Event.type tick = kTimer →
  Forall (λ event, ¬ is_arrival_of (taskId (Event.task arrive)) event)
         between →
  foldl handle_event (handle_event task_states arrive) between
    !! taskId (Event.task arrive) = Some state →
  is_io_active state = false →
  ∃ state',
    handle_event
      (foldl handle_event (handle_event task_states arrive) between) tick
      !! taskId (Event.task arrive) = Some state'
    ∧ slack_time state' = int_sub (Event.time arrive) (Event.time tick)
    ∧ (in_int (Event.time arrive - Event.time tick) →
       Event.time arrive ≤ Event.time tick →
       slack_time state' = Event.time arrive - Event.time tick
       ∧ urgency_level state' = 2).
Proof.
  intros Ha Ht Hbetween Hstate Hio.
  assert (Hnew : handle_event task_states arrive
                   !! taskId (Event.task arrive)
                 = Some (mkTaskState (Event.task arrive) false
                           (int_sub (deadline (Event.task arrive))
                                    (Event.time arrive))
                           (int_sub (deadline (Event.task arrive))
                                    (Event.time arrive)) 0 0)).
  { unfold handle_event. rewrite Ha. apply lookup_insert_eq. }
  destruct (foldl_keeps _ _ _ _ _ Hbetween Hnew Hstate) as [Hrem Htask].
  simpl in Hrem, Htask.
  exists (update_state (Event.time tick) state).
  destruct (update_state_ready (Event.time tick) state Hio) as [Hs Hu].
  simpl in Hs, Hu. rewrite Hrem, Htask, int_sub_cancel in Hs.
  split_and!.
  - rewrite lookup_timer, Hstate by done. simpl. f_equal.
    apply tick_io_ready.
    by destruct (update_state_frame (Event.time tick) state) as (_ & -> & _).
  - done.
  - intros Hrange Hle. rewrite Hs, int_sub_exact by done.
    split; [done|]. rewrite Hu, Hrem, Htask, int_sub_cancel.
    rewrite int_sub_exact by done.
    unfold urgency_rule, base_tier. repeat case_decide; lia.
Qed.

Lemma slack_is_elapsed_time_witness :
  Event.type (arrival 1 500 kNormal 4) = kTaskArrival
  ∧ Event.type (timer 9) = kTimer
  ∧ Forall (λ event,
              ¬ is_arrival_of (taskId (Event.task (arrival 1 500 kNormal 4)))
                              event)
           [io_request 1 5; timer 6; io_end 1 7]
  ∧ ∃ state',
      handle_event
        (foldl handle_event (handle_event ∅ (arrival 1 500 kNormal 4))
               [io_request 1 5; timer 6; io_end 1 7])
        (timer 9) !! taskId (Event.task (arrival 1 500 kNormal 4))
      = Some state'
      ∧ slack_time state' = -5 ∧ urgency_level state' = 2.
Proof.
  assert (Hbetween :
            Forall (λ event,
                      ¬ is_arrival_of
                          (taskId (Event.task (arrival 1 500 kNormal 4)))
                          event)
                   [io_request 1 5; timer 6; io_end 1 7]).
  { repeat constructor; intros [Hty _]; discriminate Hty. }
  split; [reflexivity|]. split; [reflexivity|]. split; [exact Hbetween|].
  destruct (slack_is_elapsed_time
              ∅ (arrival 1 500 kNormal 4)
              [io_request 1 5; timer 6; io_end 1 7] (timer 9)
              (mkTaskState (mkTask 1 500 kNormal) false 496 496 0 0))
    as (state' & Hlookup & _ & Hvalue).
  - reflexivity.
  - reflexivity.
  - exact Hbetween.
  - vm_compute. reflexivity.
  - reflexivity.
  - exists state'. split; [exact Hlookup|].
    apply Hvalue.
    + vm_compute. split; discriminate.
    + simpl. lia.
Defined.

(** ** Batches and calls *)

(** X15 — Splitting a batch.  Handing [policy] a batch in two calls, one
    after the other on the table the first leaves, ends in the same table
    and the same decision as handing it the whole batch at once (with the
    second call's [current_cpu] and [current_io]): the decision depends
    only on the table reached and on the caller's two ids. *)
Theorem policy_batch_split task_states batch1 batch2 cpu1 io1 cpu2 io2 :
  policy (policy task_states batch1 cpu1 io1).1 batch2 cpu2 io2
  = policy task_states (batch1 ++ batch2) cpu2 io2.
Proof.
  unfold policy. simpl. by rewrite !foldl_app.
Qed.

(** X16 — A Timer event moves no task between the queues: the ready
    queue and the IO queue hold the same tasks after it as before. *)
Theorem timer_keeps_queues task_states tick current_cpu :
  Event.type tick = kTimer →
  (∀ a, a ∈ ready_tasks (handle_event task_states tick)
        ↔ a ∈ ready_tasks task_states)
  ∧ (∀ a, a ∈ io_tasks (handle_event task_states tick) current_cpu
          ↔ a ∈ io_tasks task_states current_cpu).
Proof.
  intros Hty.
  assert (Hstep : ∀ state,
            task (tick_io (update_state (Event.time tick) state)) = task state
            ∧ is_io_active (tick_io (update_state (Event.time tick) state))
              = is_io_active state).
  { intros state.
    destruct (tick_io_frame (update_state (Event.time tick) state))
      as (-> & -> & _).
    by destruct (update_state_frame (Event.time tick) state)
      as (-> & -> & _). }
  split; intros a.
  - rewrite !elem_of_ready_tasks. split.
    + intros (id & state' & Hlookup & Hio & ->).
      rewrite lookup_timer in Hlookup by done.
      destruct (task_states !! id) as [state|] eqn:Hstate; [|done].
      simpl in Hlookup. injection Hlookup as <-.
      destruct (Hstep state) as [Ht Ha]. exists id, state.
      split_and!; [done|congruence|congruence].
    + intros (id & state & Hstate & Hio & ->).
      destruct (Hstep state) as [Ht Ha].
      exists id, (tick_io (update_state (Event.time tick) state)).
      rewrite lookup_timer, Hstate by done.
      split_and!; [done|congruence|congruence].
  - rewrite !elem_of_io_tasks. split.
    + intros (id & state' & Hlookup & Hio & Hne & ->).
      rewrite lookup_timer in Hlookup by done.
      destruct (task_states !! id) as [state|] eqn:Hstate; [|done].
      simpl in Hlookup. injection Hlookup as <-.
      destruct (Hstep state) as [Ht Ha]. exists id, state.
      split_and!; [done|congruence|done|congruence].
    + intros (id & state & Hstate & Hio & Hne & ->).
      destruct (Hstep state) as [Ht Ha].
      exists id, (tick_io (update_state (Event.time tick) state)).
      rewrite lookup_timer, Hstate by done.
      split_and!; [done|congruence|done|congruence].
Qed.

Lemma timer_keeps_queues_witness :
  Event.type (timer 7) = kTimer
  ∧ (mkTask 1 20 kNormal
       ∈ ready_tasks
           (handle_event
              (foldl handle_event ∅ [arrival 1 20 kNormal 0;
                                     arrival 2 9 kHigh 0; io_request 2 1])
              (timer 7))
     ↔ mkTask 1 20 kNormal
         ∈ ready_tasks
             (foldl handle_event ∅ [arrival 1 20 kNormal 0;
                                    arrival 2 9 kHigh 0; io_request 2 1])).
Proof.
  split; [reflexivity|].
  destruct (timer_keeps_queues
              (foldl handle_event ∅ [arrival 1 20 kNormal 0;
                                     arrival 2 9 kHigh 0; io_request 2 1])
              (timer 7) 0) as [Hready _].
  - reflexivity.
  - apply Hready.
Defined.

(** ** Urgency follows slack *)

Lemma urgency_rule_antitone slack1 slack2 p1 p2 :
  slack1 ≤ slack2 → p1 = p2 ∨ p1 = kHigh →
  urgency_rule slack2 p2 ≤ urgency_rule slack1 p1.
Proof.
  intros Hle Hp. unfold urgency_rule, base_tier.
  destruct (priority_cases p1) as [-> | ->],
           (priority_cases p2) as [-> | ->];
    repeat case_decide; destruct_and?; try lia; try congruence;
    try (destruct Hp; congruence);
    exfalso; intuition (congruence || lia).
Qed.

(** X17 — Urgency is antitone in slack.  Of two records that
    [update_task_states] recomputes at the same call, the one that ends
    with the smaller (or equal) slack never gets the lower urgency level,
    provided it has the same priority as the other or is the
    high-priority one. *)
Theorem update_state_urgency_antitone t state1 state2 :
  is_io_active state1 = false → is_io_active state2 = false →
  priority (task state1) = priority (task state2)
  ∨ priority (task state1) = kHigh →
  slack_time (update_state t state1) ≤ slack_time (update_state t state2) →
  urgency_level (update_state t state2)
  ≤ urgency_level (update_state t state1).
Proof.
  intros Hio1 Hio2 Hp.
  destruct (update_state_ready t state1 Hio1) as [-> ->].
  destruct (update_state_ready t state2 Hio2) as [-> ->].
  intros Hle. by apply urgency_rule_antitone.
Qed.

Lemma update_state_urgency_antitone_witness :
  is_io_active (mkTaskState (mkTask 1 20 kHigh) false 12 0 0 0) = false
  ∧ is_io_active (mkTaskState (mkTask 2 40 kNormal) false 30 0 0 0) = false
  ∧ slack_time
      (update_state 1 (mkTaskState (mkTask 1 20 kHigh) false 12 0 0 0))
    ≤ slack_time
        (update_state 1 (mkTaskState (mkTask 2 40 kNormal) false 30 0 0 0))
  ∧ urgency_level
      (update_state 1 (mkTaskState (mkTask 2 40 kNormal) false 30 0 0 0))
    ≤ urgency_level
        (update_state 1 (mkTaskState (mkTask 1 20 kHigh) false 12 0 0 0)).
Proof.
  split; [reflexivity|]. split; [reflexivity|].
  split; [vm_compute; discriminate|].
  apply (update_state_urgency_antitone
           1 (mkTaskState (mkTask 1 20 kHigh) false 12 0 0 0)
           (mkTaskState (mkTask 2 40 kNormal) false 30 0 0 0)).
  - reflexivity.
  - reflexivity.
  - right. reflexivity.
  - vm_compute. discriminate.
Defined.

Lemma timer_fresh_urgency task_states tick id r :
  Event.type tick = kTimer →
  handle_event task_states tick !! id = Some r →
  is_io_active r = false →
  urgency_level r = urgency_rule (slack_time r) (priority (task r)).
Proof.
  intros Hty Hlookup Hio. rewrite lookup_timer in Hlookup by done.
  destruct (task_states !! id) as [state|]; [|done].
  simpl in Hlookup. injection Hlookup as <-.
  destruct (tick_io_frame (update_state (Event.time tick) state))
    as (_ & Ha & _).
  destruct (update_state_frame (Event.time tick) state)
    as (Ht & Ha' & _).
  assert (Hstate : is_io_active state = false) by congruence.
  rewrite tick_io_ready by congruence.
  destruct (update_state_ready (Event.time tick) state Hstate) as [-> ->].
  by rewrite Ht.
Qed.

Lemma timer_order_is_slack task_states tick id1 r1 id2 r2 :
  Event.type tick = kTimer →
  handle_event task_states tick !! id1 = Some r1 →
  handle_event task_states tick !! id2 = Some r2 →
  is_io_active r1 = false → is_io_active r2 = false →
  priority (task r1) = priority (task r2) →
  cpu_precedes r1 r2 ↔ slack_time r1 < slack_time r2.
Proof.
  intros Hty H1 H2 Hio1 Hio2 Hp.
  pose proof (timer_fresh_urgency _ _ _ _ Hty H1 Hio1) as Hu1.
  pose proof (timer_fresh_urgency _ _ _ _ Hty H2 Hio2) as Hu2.
  unfold cpu_precedes. rewrite Hu1, Hu2, Hp. split.
  - intros [[Hh Hn]|[[_ Hlt]|(_ & _ & Hlt)]]; [congruence| |done].
    destruct (Z.lt_ge_cases (slack_time r1) (slack_time r2)) as [?|Hge];
      [done|].
    pose proof (urgency_rule_antitone _ _ (priority (task r2))
                  (priority (task r2)) Hge (or_introl eq_refl)). lia.
  - intros Hlt.
    pose proof (urgency_rule_antitone (slack_time r1) (slack_time r2)
                  (priority (task r2)) (priority (task r2))
                  ltac:(lia) (or_introl eq_refl)) as Hle.
    right.
    destruct (Z.lt_ge_cases
                (urgency_rule (slack_time r2) (priority (task r2)))
                (urgency_rule (slack_time r1) (priority (task r2))))
      as [?|Hge]; [by left|].
    right. split_and!; [done|lia|done].
Qed.

(** X18 — Least slack first after a tick.  When the batch ends with a
    Timer event, on a table whose records are filed under their own ids,
    the record chosen for the CPU has a slack no larger than that of any
    ready record of its own priority: for freshly recomputed records the
    urgency level never overrules the slack. *)
Theorem cpu_least_slack_after_tick task_states events tick current_cpu
    current_io id r :
  table_wf task_states →
  Event.type tick = kTimer →
  let after :=
    (policy task_states (events ++ [tick]) current_cpu current_io).1 in
  let chosen :=
    cpuTask (policy task_states (events ++ [tick]) current_cpu current_io).2 in
  after !! id = Some r → is_io_active r = false →
  ∃ r0, after !! chosen = Some r0 ∧ is_io_active r0 = false
        ∧ (priority (task r0) = priority (task r) →
           slack_time r0 ≤ slack_time r).
Proof.
  intros Hwf Hty after chosen Hr Hio.
  assert (Hafter : table_wf after) by by apply table_wf_foldl.
  assert (Hlast : after
                  = handle_event (foldl handle_event task_states events) tick).
  { subst after. rewrite policy_table. by rewrite foldl_app. }
  destruct (cpu_front after Hafter) as [[Hnil _]|(r0 & Hr0 & Hio0 & Hmax)].
  - assert (Hin : task r ∈ ready_tasks after)
      by (apply elem_of_ready_tasks; eauto).
    rewrite Hnil in Hin. by apply elem_of_nil in Hin.
  - exists r0. split_and!; [done..|]. intros Hp.
    specialize (Hmax id r Hr Hio).
    assert (Hiff : cpu_precedes r r0 ↔ slack_time r < slack_time r0).
    { eapply (timer_order_is_slack _ tick id r); rewrite <-?Hlast; eauto. }
    destruct (Z.lt_ge_cases (slack_time r) (slack_time r0)) as [Hlt|Hge];
      [|lia].
    by apply Hiff in Hlt.
Qed.

Lemma cpu_least_slack_after_tick_witness :
  table_wf ∅
  ∧ Event.type (timer 9) = kTimer
  ∧ (policy ∅ ([arrival 1 500 kNormal 4; arrival 2 12 kNormal 6] ++ [timer 9])
            0 0).1 !! 2
    = Some (mkTaskState (mkTask 2 12 kNormal) false 6 (-3) 0 2)
  ∧ ∃ r0,
      (policy ∅ ([arrival 1 500 kNormal 4; arrival 2 12 kNormal 6]
                 ++ [timer 9]) 0 0).1
        !! cpuTask (policy ∅ ([arrival 1 500 kNormal 4;
                               arrival 2 12 kNormal 6] ++ [timer 9]) 0 0).2
      = Some r0
      ∧ is_io_active r0 = false
      ∧ (priority (task r0) = kNormal → slack_time r0 ≤ -3).
Proof.
  split; [exact table_wf_empty|]. split; [reflexivity|].
  split; [vm_compute; reflexivity|].
  apply (cpu_least_slack_after_tick
           ∅ [arrival 1 500 kNormal 4; arrival 2 12 kNormal 6] (timer 9) 0 0
           2 (mkTaskState (mkTask 2 12 kNormal) false 6 (-3) 0 2)).
  - exact table_wf_empty.
  - reflexivity.
  - vm_compute. reflexivity.
  - reflexivity.
Defined.

(** ** Repeating and reordering events *)

Lemma handle_event_local event :
  Event.type event ≠ kTimer →
  ∃ change : option TaskState → option TaskState,
    (∀ old, change (change old) = change old)
    ∧ ∀ task_states id,
        handle_event task_states event !! id
        = if decide (taskId (Event.task event) = id)
          then change (task_states !! id) else task_states !! id.
Proof.
  intros Hty. destruct (Event.type event) eqn:Hcase; [..|done].
  - exists (λ _, Some (mkTaskState (Event.task event) false
                         (int_sub (deadline (Event.task event))
                                  (Event.time event))
                         (int_sub (deadline (Event.task event))
                                  (Event.time event)) 0 0)).
    split; [done|]. intros task_states id. unfold handle_event.
    rewrite Hcase. case_decide as Hid.
    + subst id. apply lookup_insert_eq.
    + by apply lookup_insert_ne.
  - exists (λ _, None). split; [done|]. intros task_states id.
    by apply lookup_finish.
  - exists (fmap (set_io true 10)). split; [by intros [?|]|].
    intros task_states id. by apply lookup_io_request.
  - exists (fmap (set_io false 0)). split; [by intros [?|]|].
    intros task_states id. by apply lookup_io_end.
Qed.

(** X19 — Duplicates are harmless.  Applying the same Arrival, Finish,
    IoRequest or IoEnd event twice in a row leaves the table that applying
    it once leaves.  (A Timer event is different: each one counts.) *)
Theorem handle_event_twice task_states event :
  Event.type event ≠ kTimer →
  handle_event (handle_event task_states event) event
  = handle_event task_states event.
Proof.
  intros Hty.
  destruct (handle_event_local event Hty) as (change & Hidem & Hlookup).
  apply map_eq. intros id. rewrite !Hlookup.
  case_decide; [apply Hidem|done].
Qed.

Lemma handle_event_twice_witness :
  Event.type (io_request 1 4) ≠ kTimer
  ∧ handle_event
      (handle_event (foldl handle_event ∅ [arrival 1 20 kNormal 0])
                    (io_request 1 4))
      (io_request 1 4)
    = handle_event (foldl handle_event ∅ [arrival 1 20 kNormal 0])
                   (io_request 1 4).
Proof.
  split; [discriminate|].
  apply (handle_event_twice
           (foldl handle_event ∅ [arrival 1 20 kNormal 0]) (io_request 1 4)).
  discriminate.
Defined.

(** X20 — Events of different tasks commute.  Two events that are not
    Timer events and name different task ids can be applied in either
    order: the resulting table is the same. *)
Theorem handle_event_commute task_states event1 event2 :
  Event.type event1 ≠ kTimer → Event.type event2 ≠ kTimer →
  taskId (Event.task event1) ≠ taskId (Event.task event2) →
  handle_event (handle_event task_states event1) event2
  = handle_event (handle_event task_states event2) event1.
Proof.
  intros Hty1 Hty2 Hne.
  destruct (handle_event_local event1 Hty1) as (change1 & _ & Hlookup1).
  destruct (handle_event_local event2 Hty2) as (change2 & _ & Hlookup2).
  apply map_eq. intros id. rewrite Hlookup2, !Hlookup1, Hlookup2.
  repeat case_decide; congruence.
Qed.

Lemma handle_event_commute_witness :
  Event.type (io_request 1 4) ≠ kTimer
  ∧ Event.type (finish 2 4) ≠ kTimer
  ∧ taskId (Event.task (io_request 1 4)) ≠ taskId (Event.task (finish 2 4))
  ∧ handle_event
      (handle_event
         (foldl handle_event ∅ [arrival 1 20 kNormal 0; arrival 2 9 kHigh 0])
         (io_request 1 4))
      (finish 2 4)
    = handle_event
        (handle_event
           (foldl handle_event ∅ [arrival 1 20 kNormal 0; arrival 2 9 kHigh 0])
           (finish 2 4))
        (io_request 1 4).
Proof.
  split; [discriminate|]. split; [discriminate|]. split; [simpl; lia|].
  apply (handle_event_commute
           (foldl handle_event ∅ [arrival 1 20 kNormal 0; arrival 2 9 kHigh 0])
           (io_request 1 4) (finish 2 4)).
  - discriminate.
  - discriminate.
  - simpl. lia.
Defined.
